(** * QemuEvent (util/event.c): a tri-state resettable event

    Shallow embedding of [qemu_event_init], [qemu_event_destroy],
    [qemu_event_set], [qemu_event_reset] and [qemu_event_wait] as a
    program-counter machine: every atomic access to the event that the C
    code performs is one step of the calling thread.  Threads are
    interleaved by an explicit schedule (sequential consistency); the
    memory barriers of the source ([smp_mb], [smp_mb__after_rmw], the
    acquire of [qatomic_load_acquire]) are therefore no-ops here.

    Both build flavours are covered: [HAVE_FUTEX] (the [#ifdef HAVE_FUTEX]
    branches) and [NO_FUTEX] (the [#else] / [#ifndef HAVE_FUTEX]
    branches, a pthread mutex and condition variable). *)

From Stdlib Require Import ZArith Lia.
From stdpp Require Import base decidable option list numbers.

Open Scope Z_scope.

(** ** Machine integers *)

(** [ev->value] is an [unsigned]; the macros are [int] constants.  A
    store or comparison converts the constant to [unsigned]
    (wrap-around modulo 2^32), and [int old = qatomic_xchg(...)]
    converts back. *)
Definition to_unsigned (z : Z) : Z := z mod 2 ^ 32.
Definition to_int (u : Z) : Z := if u <? 2 ^ 31 then u else u - 2 ^ 32.

(** util/event.c:21-23 *)
Definition EV_SET : Z := 0.
Definition EV_FREE : Z := 1.
Definition EV_BUSY : Z := -1.

(** The three words an initialized event may hold. *)
Definition tri (v : Z) : Prop :=
  v = to_unsigned EV_SET ∨ v = to_unsigned EV_FREE ∨ v = to_unsigned EV_BUSY.

(** ** The event object *)

Inductive backend := HAVE_FUTEX | NO_FUTEX.

(** Modelled from the spec: [pthread_mutex_t] is declared by the C
    library, not by this repository.  A mutex is constructed or not, and
    is owned by at most one thread. *)
Record pthread_mutex_t := Mutex {
  mutex_constructed : bool;
  mutex_owner : option nat
}.

(** Modelled from the spec: [pthread_cond_t], likewise.  The threads
    asleep on the condition variable are the threads whose program
    counter is inside [pthread_cond_wait] (see [WaitCondSleep]). *)
Record pthread_cond_t := Cond {
  cond_constructed : bool
}.

(** Modelled from the spec: [struct QemuEvent] is declared in
    include/qemu/thread-posix.h, which is not among the sources.  The
    fields are the ones util/event.c reads and writes: [value]
    ("state", an atomically accessed integer), [initialized] (the
    lifecycle flag), and the lock and condition variable that only
    exist in builds without futexes (they are left untouched by the
    [HAVE_FUTEX] code). *)
Record QemuEvent := Event {
  value : Z;
  initialized : bool;
  lock : pthread_mutex_t;
  cond : pthread_cond_t
}.

Definition with_value (v : Z) (e : QemuEvent) : QemuEvent :=
  Event v (initialized e) (lock e) (cond e).
Definition with_initialized (i : bool) (e : QemuEvent) : QemuEvent :=
  Event (value e) i (lock e) (cond e).
Definition with_lock (m : pthread_mutex_t) (e : QemuEvent) : QemuEvent :=
  Event (value e) (initialized e) m (cond e).
Definition with_cond (c : pthread_cond_t) (e : QemuEvent) : QemuEvent :=
  Event (value e) (initialized e) (lock e) c.

(** ** Program counters

    One constructor per atomic action of util/event.c, named after the
    function it belongs to; the number is the source line. *)
Inductive pc :=
  (* qemu_event_init *)
  | InitMutex (init : bool)     (* 28 pthread_mutex_init(&ev->lock, NULL) *)
  | InitCond (init : bool)      (* 29 pthread_cond_init(&ev->cond, NULL) *)
  | InitValue (init : bool)     (* 32 ev->value = (init ? EV_SET : EV_FREE) *)
  | InitFlag                    (* 33 ev->initialized = true *)
  (* qemu_event_destroy *)
  | DestroyAssert               (* 38 assert(ev->initialized) *)
  | DestroyFlag                 (* 39 ev->initialized = false *)
  | DestroyMutex                (* 41 pthread_mutex_destroy(&ev->lock) *)
  | DestroyCond                 (* 42 pthread_cond_destroy(&ev->cond) *)
  (* qemu_event_set *)
  | SetAssert                   (* 48 assert(ev->initialized) *)
  | SetRead                     (* 57-58 smp_mb(); qatomic_read(&ev->value) != EV_SET *)
  | SetXchg                     (* 59-63 old = qatomic_xchg(&ev->value, EV_SET); old == EV_BUSY *)
  | SetWake                     (* 65 qemu_futex_wake_all(ev) *)
  | SetLock                     (* 69 pthread_mutex_lock(&ev->lock) *)
  | SetStore                    (* 70 qatomic_set(&ev->value, EV_SET) *)
  | SetBroadcast                (* 71 pthread_cond_broadcast(&ev->cond) *)
  | SetUnlock                   (* 72 pthread_mutex_unlock(&ev->lock) *)
  (* qemu_event_reset *)
  | ResetAssert                 (* 78 assert(ev->initialized) *)
  | ResetOr                     (* 84 qatomic_or(&ev->value, EV_FREE) *)
  (* qemu_event_wait *)
  | WaitAssert                  (* 95 assert(ev->initialized) *)
  | WaitLoad                    (* 108-113 value = qatomic_load_acquire(&ev->value) *)
  | WaitCas                     (* 125 qatomic_cmpxchg(&ev->value, EV_FREE, EV_BUSY) == EV_SET *)
  | WaitFutex                   (* 135 qemu_futex_wait(ev, EV_BUSY): compare and enqueue *)
  | WaitFutexSleep              (* 135 asleep inside qemu_futex_wait *)
  | WaitLock                    (* 138 pthread_mutex_lock(&ev->lock) *)
  | WaitRead                    (* 139 qatomic_read(&ev->value) != EV_SET *)
  | WaitCondWait                (* 140 pthread_cond_wait: release the mutex and sleep *)
  | WaitCondSleep               (* 140 asleep inside pthread_cond_wait *)
  | WaitCondRelock              (* 140 pthread_cond_wait: re-acquire the mutex *)
  | WaitUnlock                  (* 142 pthread_mutex_unlock(&ev->lock) *)
  (* the call has returned *)
  | Ret.

Global Instance pc_eq_dec : EqDecision pc.
Proof. solve_decision. Defined.

Inductive op := OpInit (init : bool) | OpDestroy | OpSet | OpReset | OpWait.

(** First action of each function. *)
Definition entry (b : backend) (o : op) : pc :=
  match o with
  | OpInit i => match b with HAVE_FUTEX => InitValue i | NO_FUTEX => InitMutex i end
  | OpDestroy => DestroyAssert
  | OpSet => SetAssert
  | OpReset => ResetAssert
  | OpWait => WaitAssert
  end.

(** What a step does to the other threads. *)
Inductive effect :=
  | Silent
  | FutexWakeAll      (* qemu_futex_wake_all: every thread asleep on the word is woken *)
  | CondBroadcast.    (* pthread_cond_broadcast: every thread asleep on the condvar is woken *)

Inductive outcome :=
  | Step (p' : pc) (e' : QemuEvent) (eff : effect)
  | Block             (* asleep, waiting for the mutex, or returned: no step now *)
  | AssertFail.       (* assert() failed: the process aborts *)

(** Modelled from the spec: [pthread_mutex_lock] by thread [t]; it
    blocks while another thread owns the mutex. *)
Definition mutex_lock (t : nat) (next : pc) (e : QemuEvent) : outcome :=
  match mutex_owner (lock e) with
  | None => Step next (with_lock (Mutex (mutex_constructed (lock e)) (Some t)) e) Silent
  | Some _ => Block
  end.

(** Modelled from the spec: [pthread_mutex_unlock]. *)
Definition mutex_unlock (e : QemuEvent) : QemuEvent :=
  with_lock (Mutex (mutex_constructed (lock e)) None) e.

(** [qatomic_or(&ev->value, EV_FREE)] on the unsigned word. *)
Definition reset_or (v : Z) : Z := to_unsigned (Z.lor v (to_unsigned EV_FREE)).

(** One atomic action of thread [t] standing at [p].  Constructing or
    destroying the condition variable while a thread is asleep on it is
    not modelled: the sleepers are not a field of the event, and the
    caller of init and destroy has to rule it out. *)
Definition thread_step (b : backend) (t : nat) (p : pc) (e : QemuEvent) : outcome :=
  match p with
  (* qemu_event_init, lines 25-34 *)
  | InitMutex i => Step (InitCond i) (with_lock (Mutex true None) e) Silent
  | InitCond i => Step (InitValue i) (with_cond (Cond true) e) Silent
  | InitValue i =>
      Step InitFlag (with_value (to_unsigned (if i then EV_SET else EV_FREE)) e) Silent
  | InitFlag => Step Ret (with_initialized true e) Silent
  (* qemu_event_destroy, lines 36-44 *)
  | DestroyAssert => if initialized e then Step DestroyFlag e Silent else AssertFail
  | DestroyFlag =>
      Step (match b with HAVE_FUTEX => Ret | NO_FUTEX => DestroyMutex end)
           (with_initialized false e) Silent
  | DestroyMutex =>
      (* pthread_mutex_destroy on a mutex that a thread owns fails with
         EBUSY and leaves the mutex as it is; line 41 drops the result *)
      Step DestroyCond
           (match mutex_owner (lock e) with
            | None => with_lock (Mutex false None) e
            | Some _ => e
            end) Silent
  | DestroyCond => Step Ret (with_cond (Cond false) e) Silent
  (* qemu_event_set, lines 46-74 *)
  | SetAssert =>
      if initialized e
      then Step (match b with HAVE_FUTEX => SetRead | NO_FUTEX => SetLock end) e Silent
      else AssertFail
  | SetRead =>
      Step (if value e =? to_unsigned EV_SET then Ret else SetXchg) e Silent
  | SetXchg =>
      let old := to_int (value e) in
      Step (if old =? EV_BUSY then SetWake else Ret)
           (with_value (to_unsigned EV_SET) e) Silent
  | SetWake => Step Ret e FutexWakeAll
  | SetLock => mutex_lock t SetStore e
  | SetStore => Step SetBroadcast (with_value (to_unsigned EV_SET) e) Silent
  | SetBroadcast => Step SetUnlock e CondBroadcast
  | SetUnlock => Step Ret (mutex_unlock e) Silent
  (* qemu_event_reset, lines 76-91 *)
  | ResetAssert => if initialized e then Step ResetOr e Silent else AssertFail
  | ResetOr => Step Ret (with_value (reset_or (value e)) e) Silent
  (* qemu_event_wait, lines 93-144 *)
  | WaitAssert =>
      if initialized e
      then Step (match b with HAVE_FUTEX => WaitLoad | NO_FUTEX => WaitLock end) e Silent
      else AssertFail
  | WaitLoad =>
      let v := value e in
      if v =? to_unsigned EV_SET then Step Ret e Silent
      else if v =? to_unsigned EV_FREE then Step WaitCas e Silent
      else Step WaitFutex e Silent
  | WaitCas =>
      let old := value e in
      let e' := if old =? to_unsigned EV_FREE
                then with_value (to_unsigned EV_BUSY) e else e in
      if old =? to_unsigned EV_SET then Step Ret e' Silent
      else Step WaitFutex e' Silent
  | WaitFutex =>
      (* the kernel compares the word with the expected value and only
         then puts the caller to sleep; otherwise the call returns at once
         and the loop starts over *)
      if value e =? to_unsigned EV_BUSY then Step WaitFutexSleep e Silent
      else Step WaitLoad e Silent
  | WaitFutexSleep => Block
  | WaitLock => mutex_lock t WaitRead e
  | WaitRead =>
      Step (if value e =? to_unsigned EV_SET then WaitUnlock else WaitCondWait) e Silent
  | WaitCondWait => Step WaitCondSleep (mutex_unlock e) Silent
  | WaitCondSleep => Block
  | WaitCondRelock => mutex_lock t WaitUnlock e
  | WaitUnlock => Step Ret (mutex_unlock e) Silent
  | Ret => Block
  end.

Close Scope Z_scope.

(** ** Threads running concurrently on one event *)

(** The whole process: the event, the program counter of every thread
    (thread [t] is entry [t] of [pool]), the number of wake operations
    issued so far (the wake-count instrumentation hook of the tests), and
    whether an assertion has aborted the process. *)
Record system := System {
  ev : QemuEvent;
  pool : list pc;
  wakes : nat;
  aborted : bool
}.

(** Modelled from the spec: [qemu_futex_wait] and [qemu_futex_wake_all]
    are declared in include/qemu/futex.h, which is not among the
    sources; they are the wait-on-address facility: the wait puts the
    caller to sleep only if the word still has the expected value (see
    [WaitFutex]), and the wake releases every thread asleep on the word.
    A sleeping thread that is woken resumes here: after
    [qemu_futex_wait] the loop of line 98 starts over; inside
    [pthread_cond_wait] the mutex is re-acquired first. *)
Definition wake_futex (p : pc) : pc :=
  match p with WaitFutexSleep => WaitLoad | _ => p end.
Definition wake_cond (p : pc) : pc :=
  match p with WaitCondSleep => WaitCondRelock | _ => p end.

Definition apply_effect (eff : effect) (p : pc) : pc :=
  match eff with
  | Silent => p
  | FutexWakeAll => wake_futex p
  | CondBroadcast => wake_cond p
  end.

Definition count_effect (eff : effect) : nat :=
  match eff with Silent => 0 | FutexWakeAll | CondBroadcast => 1 end.

(** What the scheduler (or the kernel) may do next. *)
Inductive label :=
  | Run (t : nat)        (* thread [t] performs its next action *)
  | Spurious (t : nat).  (* thread [t], asleep, is woken for no reason *)

Definition wake_spurious (p : pc) : pc := wake_cond (wake_futex p).

Definition sys_step (b : backend) (l : label) (s : system) : system :=
  if aborted s then s else
  match l with
  | Run t =>
      match pool s !! t with
      | None => s
      | Some p =>
          match thread_step b t p (ev s) with
          | Step p' e' eff =>
              System e' (apply_effect eff <$> <[t := p']> (pool s))
                     (wakes s + count_effect eff) false
          | Block => s
          | AssertFail => System (ev s) (pool s) (wakes s) true
          end
      end
  | Spurious t =>
      match pool s !! t with
      | None => s
      | Some p => System (ev s) (<[t := wake_spurious p]> (pool s)) (wakes s) false
      end
  end.

(** Running a finite schedule, first label first. *)
Definition run (b : backend) (tr : list label) (s : system) : system :=
  foldl (fun s l => sys_step b l s) s tr.

(** The state after the first [n] labels of an infinite schedule. *)
Fixpoint exec (b : backend) (sched : nat → label) (n : nat) (s : system) : system :=
  match n with
  | 0 => s
  | S k => sys_step b (sched k) (exec b sched k s)
  end.

(** ** One call executed alone *)

Inductive result :=
  | Returned (e : QemuEvent) (wake_ops : nat)
  | Aborted
  | NotReturned (p : pc) (e : QemuEvent).  (* asleep or still looping at [p] *)

Definition start (e : QemuEvent) (ps : list pc) : system := System e ps 0 false.

(** A single thread performs the call with nobody else running; no call
    of util/event.c that returns needs more than seven actions. *)
Definition call (b : backend) (o : op) (e : QemuEvent) : result :=
  let s := run b (replicate 8 (Run 0)) (start e [entry b o]) in
  if aborted s then Aborted
  else match pool s !! 0 with
       | Some Ret => Returned (ev s) (wakes s)
       | Some p => NotReturned p (ev s)
       | None => Aborted
       end.

(** ** Vocabulary of the specification *)

Inductive func := FInit | FDestroy | FSet | FReset | FWait.

Global Instance func_eq_dec : EqDecision func.
Proof. solve_decision. Defined.

(** The function a program counter belongs to. *)
Definition func_of (p : pc) : option func :=
  match p with
  | InitMutex _ | InitCond _ | InitValue _ | InitFlag => Some FInit
  | DestroyAssert | DestroyFlag | DestroyMutex | DestroyCond => Some FDestroy
  | SetAssert | SetRead | SetXchg | SetWake
  | SetLock | SetStore | SetBroadcast | SetUnlock => Some FSet
  | ResetAssert | ResetOr => Some FReset
  | WaitAssert | WaitLoad | WaitCas | WaitFutex | WaitFutexSleep
  | WaitLock | WaitRead | WaitCondWait | WaitCondSleep | WaitCondRelock
  | WaitUnlock => Some FWait
  | Ret => None
  end.

Definition func_of_op (o : op) : func :=
  match o with
  | OpInit _ => FInit | OpDestroy => FDestroy | OpSet => FSet
  | OpReset => FReset | OpWait => FWait
  end.

(** A [qemu_event_wait] call that has begun and not returned. *)
Definition wait_active (p : pc) : bool := bool_decide (func_of p = Some FWait).

(** A [qemu_event_reset] call that has not yet performed its OR. *)
Definition reset_pending (p : pc) : bool := bool_decide (func_of p = Some FReset).

(** The program counters of set(), reset() and wait() in each build. *)
Definition pc_ok (b : backend) (p : pc) : bool :=
  match p with
  | SetAssert | ResetAssert | ResetOr | WaitAssert | Ret => true
  | SetRead | SetXchg | SetWake | WaitLoad | WaitCas | WaitFutex | WaitFutexSleep =>
      match b with HAVE_FUTEX => true | NO_FUTEX => false end
  | SetLock | SetStore | SetBroadcast | SetUnlock
  | WaitLock | WaitRead | WaitCondWait | WaitCondSleep | WaitCondRelock | WaitUnlock =>
      match b with HAVE_FUTEX => false | NO_FUTEX => true end
  | _ => false
  end.

(** Between [pthread_mutex_lock] and the release of the mutex. *)
Definition holds_lock (p : pc) : bool :=
  match p with
  | SetStore | SetBroadcast | SetUnlock | WaitRead | WaitCondWait | WaitUnlock => true
  | _ => false
  end.

(** The four transitions of the comment at util/event.c:6-19; a write
    of the value already there is no transition. *)
Definition legal (v v' : Z) : Prop :=
  v' = v
  ∨ (v = to_unsigned EV_FREE ∧ v' = to_unsigned EV_SET)
  ∨ (v = to_unsigned EV_BUSY ∧ v' = to_unsigned EV_SET)
  ∨ (v = to_unsigned EV_SET ∧ v' = to_unsigned EV_FREE)
  ∨ (v = to_unsigned EV_FREE ∧ v' = to_unsigned EV_BUSY).

(** The event right after [qemu_event_init(ev, init)]. *)
Definition fresh_event (init : bool) : QemuEvent :=
  Event (to_unsigned (if init then EV_SET else EV_FREE)) true (Mutex true None) (Cond true).

(** An initialized event on which some threads are about to call set(),
    reset() or wait(); nobody has started yet. *)
Record initial (s : system) : Prop := {
  initial_alive : aborted s = false;
  initial_flag : initialized (ev s) = true;
  initial_value :
    value (ev s) = to_unsigned EV_SET ∨ value (ev s) = to_unsigned EV_FREE;
  initial_lock : mutex_owner (lock (ev s)) = None;
  initial_pool :
    ∀ t p, pool s !! t = Some p → p = SetAssert ∨ p = ResetAssert ∨ p = WaitAssert
}.

(** Every thread is scheduled again and again. *)
Definition fair (n : nat) (sched : nat → label) : Prop :=
  ∀ t k, t < n → ∃ m, k ≤ m ∧ sched m = Run t.

(** Step [k] of the schedule is the write of a set() call by thread [t]. *)
Definition set_executes (b : backend) (sched : nat → label) (k : nat)
    (s0 : system) (t : nat) : Prop :=
  sched k = Run t ∧
  (pool (exec b sched k s0) !! t = Some SetXchg
   ∨ pool (exec b sched k s0) !! t = Some SetStore).

(** "No missed wakeup" as the specification words it: whenever a
    wait() call is active while a set() executes, the wait() call
    returns. *)
Definition no_missed_wakeup (b : backend) : Prop :=
  ∀ (s0 : system) (sched : nat → label) (k ta tb : nat) (p : pc),
    initial s0 → fair (length (pool s0)) sched →
    pool (exec b sched k s0) !! ta = Some p → wait_active p = true →
    set_executes b sched k s0 tb →
    ∃ m, pool (exec b sched m s0) !! ta = Some Ret.

(** "set() wakes if and only if the state it replaced was BUSY" as the
    specification words it, for a call that runs alone. *)
Definition set_wakes_iff_busy (b : backend) : Prop :=
  ∀ e : QemuEvent,
    initialized e = true → tri (value e) → mutex_owner (lock e) = None →
    ∃ e' n, call b OpSet e = Returned e' n ∧
            (n = 1 ↔ value e = to_unsigned EV_BUSY).

(** ** Invariant of the running system *)

Record Inv (b : backend) (s : system) : Prop := {
  inv_alive : aborted s = false;
  inv_flag : initialized (ev s) = true;
  inv_tri : tri (value (ev s));
  inv_pcs : ∀ t p, pool s !! t = Some p → pc_ok b p = true;
  (* a thread asleep on the futex is owed a wake-up once the word is no longer BUSY *)
  inv_sleep :
    (∃ t, pool s !! t = Some WaitFutexSleep) →
    value (ev s) = to_unsigned EV_BUSY ∨ ∃ u, pool s !! u = Some SetWake;
  (* the mutex is owned by the one thread inside a critical section *)
  inv_owner :
    ∀ t, mutex_owner (lock (ev s)) = Some t ↔
         ∃ p, pool s !! t = Some p ∧ holds_lock p = true;
  inv_condwait :
    (∃ t, pool s !! t = Some WaitCondWait) → value (ev s) ≠ to_unsigned EV_SET;
  (* a thread asleep on the condition variable is owed a broadcast once the word is SET *)
  inv_condsleep :
    (∃ t, pool s !! t = Some WaitCondSleep) →
    value (ev s) ≠ to_unsigned EV_SET ∨ ∃ u, pool s !! u = Some SetBroadcast
}.

(** What the invariant needs to know about one move of thread [t] from
    [p] to [p'], be it an action of the thread or a spurious wake-up. *)
Record step_facts (b : backend) (t : nat) (p : pc) (e : QemuEvent)
    (p' : pc) (e' : QemuEvent) (eff : effect) : Prop := {
  sf_ok : pc_ok b p' = true;
  sf_func : func_of p' = func_of p ∨ p' = Ret;
  sf_legal : legal (value e) (value e');
  sf_tri : tri (value e');
  sf_flag : initialized e' = initialized e;
  sf_futex_sleep :
    apply_effect eff p' = WaitFutexSleep → value e' = to_unsigned EV_BUSY;
  sf_busy :
    b = HAVE_FUTEX → value e = to_unsigned EV_BUSY →
    value e' = to_unsigned EV_BUSY ∨ p' = SetWake;
  sf_waker : p = SetWake → eff = FutexWakeAll;
  sf_lock :
    match holds_lock p, holds_lock p' with
    | false, true =>
        mutex_owner (lock e) = None ∧ mutex_owner (lock e') = Some t
    | true, false => mutex_owner (lock e') = None
    | _, _ => mutex_owner (lock e') = mutex_owner (lock e)
    end;
  sf_condwait : p' = WaitCondWait → value e' ≠ to_unsigned EV_SET;
  sf_unset :
    b = NO_FUTEX → value e ≠ to_unsigned EV_SET →
    value e' ≠ to_unsigned EV_SET ∨ (p = SetStore ∧ p' = SetBroadcast);
  sf_cond_sleep :
    apply_effect eff p' = WaitCondSleep → p = WaitCondWait ∧ value e' = value e;
  sf_broadcaster : p = SetBroadcast → eff = CondBroadcast
}.

(** The event is SET and no reset() will execute any more. *)
Record Settled (b : backend) (s : system) : Prop := {
  settled_inv : Inv b s;
  settled_value : value (ev s) = to_unsigned EV_SET;
  settled_noreset : ∀ t p, pool s !! t = Some p → reset_pending p = false
}.

(** Upper bound on the actions a thread still has to perform once the
    event is settled. *)
Definition rank (p : pc) : nat :=
  match p with
  | SetAssert => 5 | SetRead => 3 | SetXchg => 2 | SetWake => 1
  | SetLock => 4 | SetStore => 3 | SetBroadcast => 2 | SetUnlock => 1
  | ResetAssert => 2 | ResetOr => 1
  | WaitAssert => 7 | WaitLoad => 1 | WaitCas => 1
  | WaitFutex => 3 | WaitFutexSleep => 2
  | WaitLock => 6 | WaitRead => 5 | WaitCondWait => 4
  | WaitCondSleep => 3 | WaitCondRelock => 2 | WaitUnlock => 1
  | _ => 0
  end.

Definition total_rank (s : system) : nat := sum_list (rank <$> pool s).

(** Thread [t] can perform an action now. *)
Definition enabled (b : backend) (t : nat) (s : system) : Prop :=
  ∃ p p' e' eff, pool s !! t = Some p ∧ thread_step b t p (ev s) = Step p' e' eff.

(** ** Scenarios *)

(** A waiter alone on a reset event, without futexes: it asserts, locks,
    reads FREE and goes to sleep in [pthread_cond_wait]; the condition
    variable wakes it spuriously; it re-acquires the mutex and unlocks. *)
Definition spurious_wakeup : list label :=
  [Run 0; Run 0; Run 0; Run 0; Spurious 0; Run 0; Run 0].

(** Thread [ta] is inside wait() or has returned from it. *)
Definition waiting (ta : nat) (s : system) : Prop :=
  ∃ p, pool s !! ta = Some p ∧ (wait_active p = true ∨ p = Ret).

(** Threads take turns, [n] of them. *)
Definition round_robin (n : nat) (k : nat) : label := Run (k mod n).

(** Three threads on a reset event with futexes: thread 0 waits, thread
    1 sets, thread 2 resets.  The waiter goes to sleep (4 actions), the
    setter exchanges and wakes (4 actions), the resetter resets (2
    actions) before the waiter has looked again, and the waiter, finding
    FREE, goes back to sleep (3 actions); from then on the threads take
    turns. *)
Definition reset_race_start : system :=
  start (fresh_event false) [WaitAssert; SetAssert; ResetAssert].

Definition reset_race_prefix : list label :=
  [Run 0; Run 0; Run 0; Run 0; Run 1; Run 1; Run 1; Run 1;
   Run 2; Run 2; Run 0; Run 0; Run 0].

Definition reset_race (k : nat) : label :=
  default (round_robin 3 k) (reset_race_prefix !! k).

(** A set() call that may still issue its wake operation. *)
Definition wake_budget (p : pc) : nat :=
  match p with
  | SetAssert | SetRead | SetXchg | SetWake | SetLock | SetStore | SetBroadcast => 1
  | _ => 0
  end.

Definition set_calls (ps : list pc) : nat := sum_list (wake_budget <$> ps).

(** The first [n] actions of a thread that runs alone. *)
Definition alone (b : backend) (n : nat) (o : op) (e : QemuEvent) : system :=
  run b (replicate n (Run 0)) (start e [entry b o]).

(** The actions thread [t] has left, by [rank]. *)
Definition thread_rank (t : nat) (s : system) : nat :=
  from_option rank 0 (pool s !! t).

(** Thread [t] is inside set() or reset(), or has returned. *)
Definition calling (t : nat) (s : system) : Prop :=
  ∃ p, pool s !! t = Some p ∧
       (func_of p = Some FSet ∨ func_of p = Some FReset ∨ p = Ret).

(** Thread [u] can act, and its action brings the measure [mu] down. *)
Definition helps (b : backend) (mu : system → nat) (u : nat) (s : system) : Prop :=
  enabled b u s ∧ mu (sys_step b (Run u) s) < mu s.

(** What a step of the system can be. *)
Inductive step_kind (b : backend) (s : system) : label → system → Prop :=
  | StepStutter l : step_kind b s l s
  | StepAbort t p :
      pool s !! t = Some p → thread_step b t p (ev s) = AssertFail →
      step_kind b s (Run t) (System (ev s) (pool s) (wakes s) true)
  | StepRun t p p' e' eff :
      pool s !! t = Some p → thread_step b t p (ev s) = Step p' e' eff →
      step_kind b s (Run t)
        (System e' (apply_effect eff <$> <[t := p']> (pool s))
                (wakes s + count_effect eff) false)
  | StepSpurious t p :
      pool s !! t = Some p → wake_spurious p ≠ p →
      step_kind b s (Spurious t)
        (System (ev s) (<[t := wake_spurious p]> (pool s)) (wakes s) false).

(** * Properties *)

(** ** Encodings *)

Lemma set_word : to_unsigned EV_SET = 0%Z.
Proof. reflexivity. Qed.

Lemma free_word : to_unsigned EV_FREE = 1%Z.
Proof. reflexivity. Qed.

Lemma busy_word : to_unsigned EV_BUSY = 4294967295%Z.
Proof. reflexivity. Qed.

Lemma tri_cases (v : Z) : tri v ↔ v = 0%Z ∨ v = 1%Z ∨ v = 4294967295%Z.
Proof. unfold tri. rewrite set_word, free_word, busy_word. tauto. Qed.

Lemma reset_or_tri (v : Z) : tri v → tri (reset_or v).
Proof.
  rewrite !tri_cases. intros [-> | [-> | ->]]; vm_compute; auto.
Qed.

Lemma reset_or_legal (v : Z) : tri v → legal v (reset_or v).
Proof.
  rewrite tri_cases. unfold legal. rewrite set_word, free_word, busy_word.
  intros [-> | [-> | ->]]; vm_compute; auto 6.
Qed.

Lemma reset_or_not_set (v : Z) : tri v → reset_or v ≠ to_unsigned EV_SET.
Proof.
  rewrite tri_cases. intros [-> | [-> | ->]]; vm_compute; discriminate.
Qed.

(** The record updates commute with the projections. *)
Lemma event_eta (e : QemuEvent) :
  Event (value e) (initialized e) (lock e) (cond e) = e.
Proof. by destruct e. Qed.

Lemma mutex_eta (m : pthread_mutex_t) :
  Mutex (mutex_constructed m) (mutex_owner m) = m.
Proof. by destruct m. Qed.

(** ** Calls executed alone *)

Lemma run_cons (b : backend) (l : label) (tr : list label) (s : system) :
  run b (l :: tr) s = run b tr (sys_step b l s).
Proof. reflexivity. Qed.

Lemma run_nil (b : backend) (s : system) : run b [] s = s.
Proof. reflexivity. Qed.

Lemma run_app (b : backend) (tr1 tr2 : list label) (s : system) :
  run b (tr1 ++ tr2) s = run b tr2 (run b tr1 s).
Proof. unfold run. apply foldl_app. Qed.

(** A step of the only thread of a system. *)
Lemma sys_step_solo (b : backend) (p : pc) (e : QemuEvent) (w : nat) :
  sys_step b (Run 0) (System e [p] w false) =
  match thread_step b 0 p e with
  | Step p' e' eff => System e' [apply_effect eff p'] (w + count_effect eff) false
  | Block => System e [p] w false
  | AssertFail => System e [p] w true
  end.
Proof. unfold sys_step. simpl. by destruct (thread_step b 0 p e). Qed.

(** After an assertion failure nothing runs any more. *)
Lemma sys_step_aborted (b : backend) (l : label) (s : system) :
  aborted s = true → sys_step b l s = s.
Proof. intros H. unfold sys_step. by rewrite H. Qed.

Lemma sys_step_aborted' (b : backend) (l : label) (e : QemuEvent)
    (ps : list pc) (w : nat) :
  sys_step b l (System e ps w true) = System e ps w true.
Proof. reflexivity. Qed.

(** Word comparisons already decided are rewritten, the others split. *)
Ltac known_words :=
  repeat match goal with
         | H : (_ =? _)%Z = _ |- _ => rewrite !H
         end.

Ltac split_word :=
  match goal with
  | |- context [(?a =? ?b)%Z] => destruct (a =? b)%Z eqn:?
  end.

Ltac words_to_eq :=
  repeat match goal with
         | H : (_ =? _)%Z = true |- _ => apply Z.eqb_eq in H
         | H : (_ =? _)%Z = false |- _ => apply Z.eqb_neq in H
         end.

(** Symbolic execution of a call that runs alone, one action at a time. *)
Ltac eval_call :=
  unfold call, start; cbn [replicate];
  repeat first
    [ progress known_words
    | split_word
    | progress (rewrite ?run_cons, ?run_nil, ?sys_step_aborted', ?sys_step_solo;
                cbn [thread_step mutex_lock mutex_unlock entry apply_effect
                     wake_futex wake_cond count_effect
                     with_value with_lock with_cond with_initialized
                     value initialized lock cond mutex_owner mutex_constructed
                     aborted pool ev wakes]) ].

(** C7: for every boolean [init], [qemu_event_init(ev, init)] returns
    with [value] equal to SET if [init] and FREE otherwise and with
    [initialized] true; in the build without futexes the mutex and the
    condition variable are constructed (and the mutex is free), in the
    futex build they are not touched. *)
Theorem init_postcondition (b : backend) (init : bool) (e : QemuEvent) :
  ∃ e', call b (OpInit init) e = Returned e' 0 ∧
        value e' = to_unsigned (if init then EV_SET else EV_FREE) ∧
        initialized e' = true ∧
        match b with
        | NO_FUTEX => lock e' = Mutex true None ∧ cond e' = Cond true
        | HAVE_FUTEX => lock e' = lock e ∧ cond e' = cond e
        end.
Proof.
  destruct b; eexists; (split; [reflexivity | by repeat split]).
Qed.

(** C9: [qemu_event_init] never looks at [initialized]: no action of it
    can fail an assertion, and called on an event whose flag is already
    true (or false, it makes no difference) it returns after overwriting
    [value] according to [init] and, without futexes, constructing the
    mutex and the condition variable anew. *)
Theorem init_unchecked (b : backend) (init flag : bool) (v : Z)
    (m : pthread_mutex_t) (c : pthread_cond_t) :
  (∀ t p e, func_of p = Some FInit → thread_step b t p e ≠ AssertFail) ∧
  call b (OpInit init) (Event v flag m c) =
    Returned (Event (to_unsigned (if init then EV_SET else EV_FREE)) true
                    (match b with NO_FUTEX => Mutex true None | HAVE_FUTEX => m end)
                    (match b with NO_FUTEX => Cond true | HAVE_FUTEX => c end)) 0.
Proof.
  split.
  - intros t p e Hp. destruct p; try discriminate Hp; discriminate.
  - by destruct b.
Qed.

(** An assertion can only fail at one of the four [assert] lines, and
    only when the flag is false. *)
Lemma assert_fail_inv (b : backend) (t : nat) (p : pc) (e : QemuEvent) :
  thread_step b t p e = AssertFail →
  initialized e = false ∧
  (p = DestroyAssert ∨ p = SetAssert ∨ p = ResetAssert ∨ p = WaitAssert).
Proof.
  destruct p; simpl; unfold mutex_lock;
    repeat case_match; try discriminate; auto 6.
Qed.

(** C8: destroy(), set(), reset() and wait() start with
    [assert(ev->initialized)].  On an event whose flag is false the first
    action of the call fails the assertion and the call aborts; on an
    event whose flag is true the first action passes the assertion
    without touching the event, no action whatsoever can fail an
    assertion, and the call does not abort. *)
Theorem lifecycle_assert (b : backend) (o : op) (e : QemuEvent) :
  func_of_op o ≠ FInit →
  (initialized e = false →
     (∀ t, thread_step b t (entry b o) e = AssertFail) ∧ call b o e = Aborted) ∧
  (initialized e = true →
     (∀ t, ∃ p', thread_step b t (entry b o) e = Step p' e Silent) ∧
     (∀ t p, thread_step b t p e ≠ AssertFail) ∧
     call b o e ≠ Aborted).
Proof.
  intros Ho. split; intros Hi.
  - destruct e as [v i m c]. simpl in Hi. subst i.
    destruct o; try (by destruct Ho); by destruct b.
  - split; [| split].
    + intros t. destruct o; try (by destruct Ho); simpl; rewrite Hi; eauto.
    + intros t p Hf. apply assert_fail_inv in Hf as [Hf _]. congruence.
    + destruct e as [v i m c]. simpl in Hi. subst i.
      destruct m as [mc [w|]], b, o; try (by destruct Ho);
        eval_call; discriminate.
Qed.

Lemma lifecycle_assert_witness :
  (call NO_FUTEX OpWait (Event 1 false (Mutex false None) (Cond false)) = Aborted) ∧
  (call HAVE_FUTEX OpSet (fresh_event false) ≠ Aborted).
Proof.
  split.
  - apply (lifecycle_assert NO_FUTEX OpWait
             (Event 1 false (Mutex false None) (Cond false))).
    + discriminate.
    + reflexivity.
  - apply (lifecycle_assert HAVE_FUTEX OpSet (fresh_event false)).
    + discriminate.
    + reflexivity.
Defined.

(** C10: an action changes [initialized] only if it is line 33 of
    [qemu_event_init] (which makes it true) or line 39 of
    [qemu_event_destroy] (which makes it false); the actions of set(),
    reset() and wait() leave the flag as it is, and the actions of
    destroy() leave [value] as it is. *)
Theorem initialized_frame (b : backend) (t : nat) (p p' : pc)
    (e e' : QemuEvent) (eff : effect) :
  thread_step b t p e = Step p' e' eff →
  (initialized e' ≠ initialized e →
     (p = InitFlag ∧ initialized e' = true) ∨
     (p = DestroyFlag ∧ initialized e' = false)) ∧
  (func_of p = Some FSet ∨ func_of p = Some FReset ∨ func_of p = Some FWait →
     initialized e' = initialized e) ∧
  (func_of p = Some FDestroy → value e' = value e).
Proof.
  intros Hs.
  destruct p; simpl in Hs; unfold mutex_lock in Hs;
    repeat case_match; simplify_eq; simpl;
    (split; [| split]); try done; auto;
    try (intros [? | [? | ?]]; discriminate).
Qed.

Lemma initialized_frame_witness :
  initialized (with_value (reset_or 0) (fresh_event true)) =
  initialized (fresh_event true).
Proof.
  apply (initialized_frame NO_FUTEX 0 ResetOr Ret (fresh_event true)
           (with_value (reset_or 0) (fresh_event true)) Silent).
  - reflexivity.
  - right. left. reflexivity.
Defined.

(** On an unsigned word, [int old == EV_BUSY] is the comparison with the
    BUSY word. *)
Lemma old_is_busy (v : Z) :
  (0 ≤ v < 2 ^ 32)%Z → (to_int v =? EV_BUSY)%Z = (v =? to_unsigned EV_BUSY)%Z.
Proof.
  intros Hv. rewrite busy_word. unfold to_int, EV_BUSY.
  destruct (Z.ltb_spec v (2 ^ 31)); destruct (Z.eqb_spec v 4294967295);
    destruct (Z.eqb_spec (v - 2 ^ 32) (-1)); destruct (Z.eqb_spec v (-1)); lia.
Qed.

(** C4: with SET=0, FREE=1, BUSY=-1 the OR of [qemu_event_reset] maps
    SET to FREE and leaves FREE and BUSY alone; so on an initialized
    event holding one of the three words reset() returns with the word
    OR-ed (the event it leaves holds FREE if it held SET or FREE, BUSY if
    it held BUSY, and is otherwise untouched), a second reset() changes
    nothing more, and reset() never turns BUSY into FREE. *)
Theorem reset_idempotent (b : backend) (e : QemuEvent) :
  initialized e = true → tri (value e) →
  reset_or (to_unsigned EV_SET) = to_unsigned EV_FREE ∧
  reset_or (to_unsigned EV_FREE) = to_unsigned EV_FREE ∧
  reset_or (to_unsigned EV_BUSY) = to_unsigned EV_BUSY ∧
  ∃ e1, call b OpReset e = Returned e1 0 ∧
        e1 = with_value (reset_or (value e)) e ∧
        value e1 = reset_or (value e) ∧
        (value e = to_unsigned EV_SET → value e1 = to_unsigned EV_FREE) ∧
        (value e = to_unsigned EV_FREE → value e1 = to_unsigned EV_FREE) ∧
        (value e = to_unsigned EV_BUSY → value e1 = to_unsigned EV_BUSY) ∧
        initialized e1 = initialized e ∧ lock e1 = lock e ∧ cond e1 = cond e ∧
        call b OpReset e1 = Returned e1 0 ∧
        ¬ (value e = to_unsigned EV_BUSY ∧ value e1 = to_unsigned EV_FREE).
Proof.
  intros Hi Ht. do 3 (split; [reflexivity |]).
  destruct e as [v i m c]. simpl in *. subst i.
  exists (Event (reset_or v) true m c).
  apply tri_cases in Ht as [-> | [-> | ->]];
    (split; [by destruct b |]); (split; [reflexivity |]);
    (split; [reflexivity |]);
    (split; [intros Hw; vm_compute in Hw |- *; congruence |]);
    (split; [intros Hw; vm_compute in Hw |- *; congruence |]);
    (split; [intros Hw; vm_compute in Hw |- *; congruence |]);
    do 3 (split; [reflexivity |]);
    (split; [by destruct b |]);
    intros [H1 H2]; vm_compute in H1, H2; discriminate.
Qed.

Lemma reset_idempotent_witness :
  ∃ e1, call NO_FUTEX OpReset (fresh_event true) = Returned e1 0 ∧
        value e1 = to_unsigned EV_FREE.
Proof.
  destruct (reset_idempotent NO_FUTEX (fresh_event true))
    as (_ & _ & _ & e1 & Hcall & _ & _ & Hset & _).
  - reflexivity.
  - left. reflexivity.
  - exists e1. split; [exact Hcall | apply Hset; reflexivity].
Defined.

(** C3, the claim as worded fails: without futexes set() broadcasts the
    condition variable although the event was already SET. *)
Lemma set_fallback_wakes_when_set :
  value (fresh_event true) = to_unsigned EV_SET ∧
  call NO_FUTEX OpSet (fresh_event true) = Returned (fresh_event true) 1 ∧
  ¬ set_wakes_iff_busy NO_FUTEX.
Proof.
  split; [reflexivity | split; [reflexivity |]].
  intros H. destruct (H (fresh_event true)) as (e' & n & Hc & Hn).
  - reflexivity.
  - left. reflexivity.
  - reflexivity.
  - assert (n = 1) as Hn1 by (vm_compute in Hc; congruence).
    apply Hn in Hn1. vm_compute in Hn1. discriminate.
Qed.

(** C3 as the code has it: with futexes set() issues [qemu_futex_wake_all]
    exactly when the word its exchange replaced was BUSY (no wake when the
    word was SET, where it does not even write, nor when it was FREE);
    without futexes set() stores SET and broadcasts the condition
    variable once, whatever the word was.  Either way the event ends up
    SET and nothing else changes. *)
Theorem set_wake_policy (e : QemuEvent) :
  initialized e = true → (0 ≤ value e < 2 ^ 32)%Z →
  mutex_owner (lock e) = None →
  call HAVE_FUTEX OpSet e =
    Returned (with_value (to_unsigned EV_SET) e)
             (if (value e =? to_unsigned EV_BUSY)%Z then 1 else 0) ∧
  (∀ t, thread_step HAVE_FUTEX t SetRead e =
          Step (if (value e =? to_unsigned EV_SET)%Z then Ret else SetXchg) e Silent) ∧
  (∀ t, thread_step HAVE_FUTEX t SetXchg e =
          Step (if (value e =? to_unsigned EV_BUSY)%Z then SetWake else Ret)
               (with_value (to_unsigned EV_SET) e) Silent) ∧
  call NO_FUTEX OpSet e = Returned (with_value (to_unsigned EV_SET) e) 1.
Proof.
  intros Hi Hv Hm. pose proof (old_is_busy _ Hv) as Hb.
  destruct e as [v i [mc o] c]. simpl in *. subst i o.
  split; [| split; [| split]].
  - rewrite busy_word in *. eval_call; words_to_eq; by subst.
  - reflexivity.
  - intros t. cbn [thread_step value]. by rewrite Hb.
  - eval_call. reflexivity.
Qed.

Lemma set_wake_policy_witness :
  call HAVE_FUTEX OpSet (Event (to_unsigned EV_BUSY) true (Mutex true None) (Cond true)) =
    Returned (fresh_event true) 1 ∧
  call NO_FUTEX OpSet (fresh_event false) = Returned (fresh_event true) 1.
Proof.
  split.
  - apply (set_wake_policy
             (Event (to_unsigned EV_BUSY) true (Mutex true None) (Cond true)));
      [reflexivity | by vm_compute | reflexivity].
  - apply (set_wake_policy (fresh_event false));
      [reflexivity | by vm_compute | reflexivity].
Defined.



(** C2, at the failing input: without futexes, a waiter on a reset
    event that is woken spuriously returns although the word was FREE
    all along; line 139 is an [if], not a loop. *)
Theorem fallback_wait_returns_unset :
  pool (run NO_FUTEX (take 4 spurious_wakeup) (start (fresh_event false) [WaitAssert]))
    = [WaitCondSleep] ∧
  pool (run NO_FUTEX spurious_wakeup (start (fresh_event false) [WaitAssert]))
    = [Ret] ∧
  Forall (λ k, value (ev (run NO_FUTEX (take k spurious_wakeup)
                            (start (fresh_event false) [WaitAssert])))
               = to_unsigned EV_FREE)
         (seq 0 8).
Proof.
  split; [reflexivity | split; [reflexivity |]].
  repeat constructor.
Qed.

(** ** The running system *)

(** The pool after thread [t] has moved from [p] to [p'] with effect
    [eff]. *)
Lemma lookup_step (ps : list pc) (t u : nat) (p p' q : pc) (eff : effect) :
  ps !! t = Some p →
  (apply_effect eff <$> <[t := p']> ps) !! u = Some q ↔
  (u = t ∧ q = apply_effect eff p') ∨
  (u ≠ t ∧ ∃ q0, ps !! u = Some q0 ∧ q = apply_effect eff q0).
Proof.
  intros Ht. apply lookup_lt_Some in Ht as Hlt.
  rewrite list_lookup_fmap. destruct (decide (u = t)) as [-> | Hne].
  - rewrite list_lookup_insert_eq by done. simpl.
    split; [intros [= <-]; by left | intros [[_ ->] | [[] _]]; done].
  - rewrite list_lookup_insert_ne by done.
    destruct (ps !! u) as [q0 |]; simpl.
    + split; [intros [= <-]; right; eauto | intros [[] | (_ & q1 & [= <-] & ->)]; done].
    + split; [done | intros [[] | (_ & q1 & ? & _)]; done].
Qed.

Lemma lookup_spurious (ps : list pc) (t u : nat) (p q : pc) :
  ps !! t = Some p →
  <[t := wake_spurious p]> ps !! u = Some q ↔
  (u = t ∧ q = wake_spurious p) ∨ (u ≠ t ∧ ps !! u = Some q).
Proof.
  intros Ht. apply lookup_lt_Some in Ht as Hlt.
  destruct (decide (u = t)) as [-> | Hne].
  - rewrite list_lookup_insert_eq by done.
    split; [intros [= <-]; by left | intros [[_ ->] | [[] _]]; done].
  - rewrite list_lookup_insert_ne by done.
    split; [by right | intros [[] | [_ ?]]; done].
Qed.

Lemma sys_step_kind (b : backend) (l : label) (s : system) :
  step_kind b s l (sys_step b l s).
Proof.
  unfold sys_step. destruct (aborted s) eqn:Ha; [apply StepStutter |].
  destruct l as [t | t]; destruct (pool s !! t) as [p |] eqn:Hp;
    try apply StepStutter.
  - destruct (thread_step b t p (ev s)) eqn:Hs.
    + by eapply StepRun.
    + apply StepStutter.
    + by eapply StepAbort.
  - destruct (decide (wake_spurious p = p)) as [Heq | Hne].
    + rewrite Heq, list_insert_id by done.
      destruct s; simpl in *; subst; apply StepStutter.
    + by eapply StepSpurious.
Qed.

(** The invariant holds before anybody has started. *)
Lemma Inv_initial (b : backend) (s : system) : initial s → Inv b s.
Proof.
  intros [Ha Hf Hv Hl Hp]. split; try done.
  - unfold tri. tauto.
  - intros t p Htp. by destruct (Hp t p Htp) as [-> | [-> | ->]].
  - intros [t Ht]. by destruct (Hp _ _ Ht) as [? | [? | ?]].
  - intros t. rewrite Hl. split; [done |].
    intros (p & Hp' & Hh). by destruct (Hp _ _ Hp') as [-> | [-> | ->]].
  - intros [t Ht]. by destruct (Hp _ _ Ht) as [? | [? | ?]].
  - intros [t Ht]. by destruct (Hp _ _ Ht) as [? | [? | ?]].
Qed.

(** Case analysis on one action of set(), reset() or wait(). *)
Ltac step_cases Hs :=
  match type of Hs with
  | thread_step ?b ?t ?p ?e = Step _ _ _ =>
      destruct p; simpl in Hs; unfold mutex_lock in Hs;
      repeat case_match; simplify_eq; words_to_eq
  end.

Lemma thread_step_facts b t p e p' e' eff :
  pc_ok b p = true → tri (value e) →
  thread_step b t p e = Step p' e' eff →
  step_facts b t p e p' e' eff.
Proof.
  intros Hok Hv Hs.
  step_cases Hs; try discriminate Hok; (split; simpl; try done; auto).
  all: try (intros _; by apply reset_or_not_set).
  all: try by apply reset_or_tri.
  all: try by apply reset_or_legal.
  all: try (unfold tri; by auto).
  all: try (by left).
  all: try (intros; by right).
  all: try (unfold legal; destruct Hv as [Hv | [Hv | Hv]]; by auto 7).
  all: try (intros ->; discriminate Hok).
  all: try (intros _ _; left; by apply reset_or_not_set).
  all: try (intros _ ->; by left).
  all: try (intros _ Hb; rewrite Hb in *; by vm_compute in *).
Qed.

Lemma spurious_facts b t p e :
  pc_ok b p = true → tri (value e) → wake_spurious p ≠ p →
  step_facts b t p e (wake_spurious p) e Silent.
Proof.
  intros Hok Hv Hne.
  destruct p; try discriminate Hok; try (by destruct Hne);
    (split; simpl; try done; auto); by left.
Qed.

Lemma apply_effect_ok b eff q : pc_ok b q = true → pc_ok b (apply_effect eff q) = true.
Proof. by destruct eff, q, b. Qed.

Lemma apply_effect_holds eff q : holds_lock (apply_effect eff q) = holds_lock q.
Proof. by destruct eff, q. Qed.

Lemma apply_effect_futex_sleep eff q :
  apply_effect eff q = WaitFutexSleep → q = WaitFutexSleep ∧ eff ≠ FutexWakeAll.
Proof. by destruct eff, q. Qed.

Lemma apply_effect_cond_sleep eff q :
  apply_effect eff q = WaitCondSleep → q = WaitCondSleep ∧ eff ≠ CondBroadcast.
Proof. by destruct eff, q. Qed.

Lemma apply_effect_cond_wait eff q :
  apply_effect eff q = WaitCondWait → q = WaitCondWait.
Proof. by destruct eff, q. Qed.

(** A thread other than the one that moves stays where it is unless the
    effect wakes it. *)
Lemma lookup_other (ps : list pc) t u p p' q eff :
  ps !! t = Some p → ps !! u = Some q → q ≠ p → apply_effect eff q = q →
  (apply_effect eff <$> <[t := p']> ps) !! u = Some q.
Proof.
  intros Ht Hu Hne Hq. apply (lookup_step _ _ _ _ _ _ _ Ht). right.
  split; [congruence | eauto].
Qed.

Lemma lookup_mover (ps : list pc) t p p' eff :
  ps !! t = Some p →
  (apply_effect eff <$> <[t := p']> ps) !! t = Some (apply_effect eff p').
Proof. intros Ht. apply (lookup_step _ _ _ _ _ _ _ Ht). by left. Qed.

Lemma Inv_move b s t p p' e' eff w :
  Inv b s → pool s !! t = Some p →
  step_facts b t p (ev s) p' e' eff →
  Inv b (System e' (apply_effect eff <$> <[t := p']> (pool s)) w false).
Proof.
  intros [Ha Hf Hv Hok Hsl How Hcw Hcs] Hp F.
  split; simpl.
  - done.
  - by rewrite (sf_flag _ _ _ _ _ _ _ F).
  - apply (sf_tri _ _ _ _ _ _ _ F).
  - intros u q Hu. apply (lookup_step _ _ _ _ _ _ _ Hp) in Hu
      as [[-> ->] | [Hne (q0 & Hq0 & ->)]]; apply apply_effect_ok; eauto.
    apply (sf_ok _ _ _ _ _ _ _ F).
  - intros [u Hu]. apply (lookup_step _ _ _ _ _ _ _ Hp) in Hu
      as [[-> Hu] | [Hne (q0 & Hq0 & Hu)]].
    + left. by apply (sf_futex_sleep _ _ _ _ _ _ _ F).
    + symmetry in Hu. apply apply_effect_futex_sleep in Hu as [-> Heff].
      assert (b = HAVE_FUTEX) as Hb by (apply Hok in Hq0; by destruct b).
      destruct Hsl as [Hbusy | [u' Hu']]; [eauto | |].
      * destruct (sf_busy _ _ _ _ _ _ _ F Hb Hbusy) as [? | ->]; [by left |].
        right. exists t. rewrite (lookup_mover _ _ _ _ _ Hp). by destruct eff.
      * right. exists u'. destruct (decide (p = SetWake)) as [-> | Hnw].
        { by destruct Heff; apply (sf_waker _ _ _ _ _ _ _ F). }
        apply (lookup_other _ _ _ _ _ _ _ Hp Hu'); [done | by destruct eff].
  - intros u. pose proof (sf_lock _ _ _ _ _ _ _ F) as HL.
    pose proof (How t) as Ht. pose proof (How u) as Hu.
    split.
    + intros Ho. destruct (decide (u = t)) as [-> | Hne].
      * exists (apply_effect eff p'). split; [by eapply lookup_mover |].
        rewrite apply_effect_holds.
        destruct (holds_lock p) eqn:Hhp, (holds_lock p') eqn:Hhp'; try done.
        -- congruence.
        -- rewrite HL in Ho. apply Ht in Ho as (q & Hq & Hh). congruence.
      * assert (mutex_owner (lock (ev s)) = Some u) as Ho'.
        { destruct (holds_lock p) eqn:Hhp, (holds_lock p') eqn:Hhp';
            [congruence | congruence | destruct HL; congruence | congruence]. }
        apply Hu in Ho' as (q & Hq & Hh). exists (apply_effect eff q).
        split; [| by rewrite apply_effect_holds].
        apply (lookup_step _ _ _ _ _ _ _ Hp). right. eauto.
    + intros (q & Hq & Hh). apply (lookup_step _ _ _ _ _ _ _ Hp) in Hq
        as [[-> ->] | [Hne (q0 & Hq0 & ->)]]; rewrite apply_effect_holds in Hh.
      * rewrite Hh in HL. destruct (holds_lock p) eqn:Hhp.
        -- rewrite HL. apply Ht. eauto.
        -- by destruct HL.
      * assert (mutex_owner (lock (ev s)) = Some u) as Ho' by (apply Hu; eauto).
        destruct (holds_lock p) eqn:Hhp.
        -- assert (mutex_owner (lock (ev s)) = Some t) by (apply Ht; eauto).
           congruence.
        -- destruct (holds_lock p'); [destruct HL |]; congruence.
  - intros [u Hu]. apply (lookup_step _ _ _ _ _ _ _ Hp) in Hu
      as [[-> Hu] | [Hne (q0 & Hq0 & Hu)]];
      symmetry in Hu; apply apply_effect_cond_wait in Hu.
    + by apply (sf_condwait _ _ _ _ _ _ _ F).
    + subst q0.
      assert (b = NO_FUTEX) as Hb by (apply Hok in Hq0; by destruct b).
      destruct (sf_unset _ _ _ _ _ _ _ F Hb) as [? | [-> _]]; [eauto | done |].
      assert (mutex_owner (lock (ev s)) = Some t) by (apply How; eauto).
      assert (mutex_owner (lock (ev s)) = Some u) by (apply How; eauto).
      congruence.
  - intros [u Hu]. apply (lookup_step _ _ _ _ _ _ _ Hp) in Hu
      as [[-> Hu] | [Hne (q0 & Hq0 & Hu)]]; symmetry in Hu.
    + destruct (sf_cond_sleep _ _ _ _ _ _ _ F Hu) as [-> Heq].
      left. rewrite Heq. eauto.
    + apply apply_effect_cond_sleep in Hu as [-> Heff].
      assert (b = NO_FUTEX) as Hb by (apply Hok in Hq0; by destruct b).
      destruct Hcs as [Hunset | [u' Hu']]; [eauto | |].
      * destruct (sf_unset _ _ _ _ _ _ _ F Hb Hunset) as [? | [-> ->]]; [by left |].
        right. exists t. rewrite (lookup_mover _ _ _ _ _ Hp). by destruct eff.
      * right. exists u'. destruct (decide (p = SetBroadcast)) as [-> | Hnb].
        { by destruct Heff; apply (sf_broadcaster _ _ _ _ _ _ _ F). }
        apply (lookup_other _ _ _ _ _ _ _ Hp Hu'); [done | by destruct eff].
Qed.

Lemma fmap_silent (ps : list pc) : apply_effect Silent <$> ps = ps.
Proof. apply list_fmap_id. Qed.

(** Every step of the system is a stutter or a move with [step_facts]. *)
Lemma sys_step_move b l s :
  Inv b s →
  sys_step b l s = s ∨
  ∃ t p p' e' eff w,
    pool s !! t = Some p ∧ step_facts b t p (ev s) p' e' eff ∧
    (l = Run t → thread_step b t p (ev s) = Step p' e' eff) ∧
    (l = Spurious t → p' = wake_spurious p ∧ p' ≠ p ∧ e' = ev s ∧ eff = Silent) ∧
    (∀ u, l = Run u ∨ l = Spurious u → u = t) ∧
    sys_step b l s = System e' (apply_effect eff <$> <[t := p']> (pool s)) w false.
Proof.
  intros HI.
  destruct (sys_step_kind b l s)
    as [l | t p Hp Hs | t p p' e' eff Hp Hs | t p Hp Hw]; [by left | | |].
  - apply assert_fail_inv in Hs as [Hs _]. destruct HI. congruence.
  - right. exists t, p, p', e', eff, (wakes s + count_effect eff).
    split; [done |]. split.
    { apply thread_step_facts; [by eapply inv_pcs | by destruct HI | done]. }
    repeat split; try done. intros u [[= ->] | [=]]; done.
  - right. exists t, p, (wake_spurious p), (ev s), Silent, (wakes s).
    split; [done |]. split.
    { apply spurious_facts; [by eapply inv_pcs | by destruct HI | done]. }
    rewrite fmap_silent. repeat split; try done. intros u [[=] | [= ->]]; done.
Qed.

Lemma Inv_step b l s : Inv b s → Inv b (sys_step b l s).
Proof.
  intros HI. destruct (sys_step_move b l s HI)
    as [-> | (t & p & p' & e' & eff & w & Hp & F & _ & _ & _ & ->)]; [done |].
  by eapply Inv_move.
Qed.

Lemma Inv_run b tr s : Inv b s → Inv b (run b tr s).
Proof.
  revert s. induction tr as [| l tr IH]; intros s HI; [done |].
  rewrite run_cons. apply IH. by apply Inv_step.
Qed.

Lemma Inv_exec b sched n s : Inv b s → Inv b (exec b sched n s).
Proof. intros HI. induction n; simpl; [done | by apply Inv_step]. Qed.

(** The word only moves along the legal transitions. *)
Lemma sys_step_legal b l s :
  Inv b s → legal (value (ev s)) (value (ev (sys_step b l s))).
Proof.
  intros HI. destruct (sys_step_move b l s HI)
    as [-> | (t & p & p' & e' & eff & w & Hp & F & _ & _ & _ & ->)]; [by left |].
  apply (sf_legal _ _ _ _ _ _ _ F).
Qed.

(** C5: from an initialized event on, whatever set(), reset() and
    wait() calls run and however they are interleaved (spurious wake-ups
    included), the word is always one of SET, FREE and BUSY, and every
    step of the system leaves it alone or takes one of the transitions
    FREE to SET, BUSY to SET, SET to FREE, FREE to BUSY; in particular no
    step goes from SET to BUSY or from BUSY to FREE.  The flag stays true
    and no assertion fails. *)
Theorem legal_transitions (b : backend) (s0 : system) (tr : list label) (l : label) :
  initial s0 →
  tri (value (ev (run b tr s0))) ∧
  legal (value (ev (run b tr s0))) (value (ev (sys_step b l (run b tr s0)))) ∧
  ¬ (value (ev (run b tr s0)) = to_unsigned EV_SET ∧
     value (ev (sys_step b l (run b tr s0))) = to_unsigned EV_BUSY) ∧
  ¬ (value (ev (run b tr s0)) = to_unsigned EV_BUSY ∧
     value (ev (sys_step b l (run b tr s0))) = to_unsigned EV_FREE) ∧
  initialized (ev (run b tr s0)) = true ∧
  aborted (run b tr s0) = false.
Proof.
  intros H0. pose proof (Inv_run b tr s0 (Inv_initial b s0 H0)) as HI.
  pose proof (sys_step_legal b l _ HI) as HL.
  repeat split; try by destruct HI.
  - intros [H1 H2]. rewrite H1, H2 in HL. unfold legal in HL. vm_compute in HL.
    intuition discriminate.
  - intros [H1 H2]. rewrite H1, H2 in HL. unfold legal in HL. vm_compute in HL.
    intuition discriminate.
Qed.

Lemma legal_transitions_witness :
  legal (value (ev (run NO_FUTEX [Run 0] (start (fresh_event true) [ResetAssert]))))
        (value (ev (sys_step NO_FUTEX (Run 0)
                      (run NO_FUTEX [Run 0] (start (fresh_event true) [ResetAssert]))))).
Proof.
  apply (legal_transitions NO_FUTEX (start (fresh_event true) [ResetAssert])
           [Run 0] (Run 0)).
  split; simpl; auto.
  intros [| t] p; simpl; [intros [= <-]; auto | destruct t; discriminate].
Defined.

(** ** Progress once the event is settled *)

Lemma step_settled (b : backend) (t : nat) (p p' : pc) (e e' : QemuEvent)
    (eff : effect) :
  pc_ok b p = true → value e = to_unsigned EV_SET → reset_pending p = false →
  thread_step b t p e = Step p' e' eff →
  value e' = to_unsigned EV_SET ∧ reset_pending p' = false ∧ rank p' < rank p.
Proof.
  intros Hok Hv Hr Hs.
  step_cases Hs; try discriminate Hok; try discriminate Hr; simpl;
    rewrite ?Hv in *; try done; repeat split; simpl; try lia; try done;
    destruct b; try discriminate Hok; simpl; lia.
Qed.

Lemma spurious_settled p :
  wake_spurious p ≠ p →
  reset_pending (wake_spurious p) = false ∧ rank (wake_spurious p) < rank p.
Proof. intros Hne. destruct p; try (by destruct Hne); simpl; split; (done || lia). Qed.

Lemma apply_effect_rank eff q : rank (apply_effect eff q) ≤ rank q.
Proof. destruct eff, q; simpl; lia. Qed.

Lemma apply_effect_reset eff q : reset_pending (apply_effect eff q) = reset_pending q.
Proof. by destruct eff, q. Qed.

Lemma sum_rank_effect eff (ps : list pc) :
  sum_list (rank <$> (apply_effect eff <$> ps)) ≤ sum_list (rank <$> ps).
Proof.
  induction ps as [| q ps IH]; csimpl; [lia |].
  pose proof (apply_effect_rank eff q). lia.
Qed.

Lemma rank_move (ps : list pc) t p p' eff :
  ps !! t = Some p → rank p' < rank p →
  sum_list (rank <$> (apply_effect eff <$> <[t := p']> ps)) < sum_list (rank <$> ps).
Proof.
  revert t. induction ps as [| q ps IH]; intros [| t] Ht Hlt; csimpl in *; try done.
  - simplify_eq. pose proof (apply_effect_rank eff p').
    pose proof (sum_rank_effect eff ps). lia.
  - pose proof (apply_effect_rank eff q). specialize (IH t Ht Hlt). lia.
Qed.

Lemma sys_step_run_eq b s t p p' e' eff :
  aborted s = false → pool s !! t = Some p →
  thread_step b t p (ev s) = Step p' e' eff →
  sys_step b (Run t) s =
    System e' (apply_effect eff <$> <[t := p']> (pool s))
           (wakes s + count_effect eff) false.
Proof. intros Ha Hp Hs. unfold sys_step. by rewrite Ha, Hp, Hs. Qed.

(** A settled system stays settled, and every step that is not a
    stutter brings the threads closer to their return. *)
Lemma Settled_step b l s :
  Settled b s →
  sys_step b l s = s ∨
  (Settled b (sys_step b l s) ∧ total_rank (sys_step b l s) < total_rank s).
Proof.
  intros [HI Hv Hr]. destruct (sys_step_move b l s HI)
    as [-> | (t & p & p' & e' & eff & w & Hp & F & HR & HS & Hl & Heq)];
    [by left | right].
  assert (value e' = to_unsigned EV_SET ∧ reset_pending p' = false
          ∧ rank p' < rank p) as (Hv' & Hr' & Hlt).
  { destruct l as [u | u].
    - pose proof (Hl u (or_introl eq_refl)) as ->.
      eapply step_settled; [by eapply inv_pcs | done | by eapply Hr | by apply HR].
    - pose proof (Hl u (or_intror eq_refl)) as ->.
      destruct (HS eq_refl) as (-> & Hne & -> & _).
      split; [done |]. by apply spurious_settled. }
  rewrite Heq. split.
  - split; simpl; [by eapply Inv_move | done |].
    intros u q Hu. apply (lookup_step _ _ _ _ _ _ _ Hp) in Hu
      as [[-> ->] | [Hne (q0 & Hq0 & ->)]]; rewrite apply_effect_reset; eauto.
  - unfold total_rank. simpl. by eapply rank_move.
Qed.

Lemma enabled_step b u s :
  Settled b s → enabled b u s →
  total_rank (sys_step b (Run u) s) < total_rank s.
Proof.
  intros [HI Hv Hr] (p & p' & e' & eff & Hp & Hs).
  rewrite (sys_step_run_eq _ _ _ _ _ _ _ (inv_alive _ _ HI) Hp Hs).
  unfold total_rank. simpl. eapply rank_move; [done |].
  eapply step_settled; [by eapply inv_pcs | done | by eapply Hr | done].
Qed.

(** As long as a waiter has not returned, somebody can act. *)
Lemma settled_progress b s ta p :
  Settled b s → pool s !! ta = Some p → wait_active p = true →
  ∃ u, enabled b u s.
Proof.
  intros [HI Hv Hr] Hp Hw. unfold enabled.
  pose proof (inv_pcs _ _ HI _ _ Hp) as Hok.
  pose proof (inv_flag _ _ HI) as Hf.
  assert (∀ u q, pool s !! u = Some q → holds_lock q = true →
                 ∃ p0 p' e' eff, pool s !! u = Some p0 ∧
                   thread_step b u p0 (ev s) = Step p' e' eff) as Hholder.
  { intros u q Hq Hh. exists q. destruct q; try discriminate Hh; simpl; eauto. }
  assert (∀ next, (∃ o, mutex_lock ta next (ev s) = Step next o Silent) ∨
                  ∃ u q, pool s !! u = Some q ∧ holds_lock q = true) as Hlock.
  { intros next. unfold mutex_lock.
    destruct (mutex_owner (lock (ev s))) as [u |] eqn:Ho; [right | left; eauto].
    apply (inv_owner _ _ HI) in Ho as (q & Hq & Hh). eauto. }
  destruct p; try discriminate Hw; try discriminate Hok.
  - exists ta, WaitAssert. simpl. rewrite Hf. eauto.
  - exists ta, WaitLoad. simpl. rewrite Hv. simpl. eauto.
  - exists ta, WaitCas. simpl. rewrite Hv. simpl. eauto.
  - exists ta, WaitFutex. simpl. rewrite Hv. simpl. eauto.
  - destruct (inv_sleep _ _ HI) as [Hb | [u Hu]]; [eauto | |].
    + rewrite Hv in Hb. discriminate.
    + exists u, SetWake. simpl. eauto.
  - destruct (Hlock WaitRead) as [[o Ho] | (u & q & Hq & Hh)]; [| eauto].
    exists ta, WaitLock. simpl. eauto.
  - exists ta, WaitRead. simpl. eauto.
  - exists ta, WaitCondWait. simpl. eauto.
  - destruct (inv_condsleep _ _ HI) as [Hb | [u Hu]]; [eauto | done |].
    exists u, SetBroadcast. simpl. eauto.
  - destruct (Hlock WaitUnlock) as [[o Ho] | (u & q & Hq & Hh)]; [| eauto].
    exists ta, WaitCondRelock. simpl. eauto.
  - exists ta, WaitUnlock. simpl. eauto.
Qed.

Lemma func_of_effect eff q : func_of (apply_effect eff q) = func_of q.
Proof. by destruct eff, q. Qed.

Lemma func_of_ret p : func_of p = None → p = Ret.
Proof. by destruct p. Qed.

(** A waiter stays a waiter until it has returned. *)
Lemma waiter_stays b l s ta p :
  Inv b s → pool s !! ta = Some p → wait_active p = true ∨ p = Ret →
  ∃ p2, pool (sys_step b l s) !! ta = Some p2 ∧ (wait_active p2 = true ∨ p2 = Ret).
Proof.
  intros HI Hp Hw. destruct (sys_step_move b l s HI)
    as [-> | (t & q & q' & e' & eff & w & Hq & F & _ & _ & _ & ->)]; [eauto |].
  simpl. destruct (decide (ta = t)) as [-> | Hne].
  - exists (apply_effect eff q'). split; [by eapply lookup_mover |].
    assert (q = p) as -> by congruence.
    unfold wait_active in *. rewrite func_of_effect.
    destruct (sf_func _ _ _ _ _ _ _ F) as [Hf | ->].
    + rewrite Hf. destruct Hw as [Hw | ->]; [by left |].
      right. apply func_of_ret in Hf as ->. by destruct eff.
    + right. by destruct eff.
  - exists (apply_effect eff p). split.
    + apply (lookup_step _ _ _ _ _ _ _ Hq). right. eauto.
    + unfold wait_active in *. rewrite func_of_effect.
      destruct Hw as [Hw | ->]; [by left | right; by destruct eff].
Qed.

Lemma length_sys_step b l s : length (pool (sys_step b l s)) = length (pool s).
Proof.
  destruct (sys_step_kind b l s); simpl;
    rewrite ?length_fmap, ?length_insert; done.
Qed.

Lemma length_exec b sched n s : length (pool (exec b sched n s)) = length (pool s).
Proof. induction n; simpl; [done | by rewrite length_sys_step]. Qed.

Lemma exec_S b sched n s :
  exec b sched (S n) s = sys_step b (sched n) (exec b sched n s).
Proof. reflexivity. Qed.

Lemma exec_add b sched k j s :
  exec b sched (k + j) s = exec b (λ i, sched (k + i)) j (exec b sched k s).
Proof.
  induction j as [| j IH]; simpl.
  - by rewrite Nat.add_0_r.
  - rewrite Nat.add_succ_r. simpl. by rewrite IH.
Qed.

Section Liveness.
Context (b : backend) (sched : nat → label) (s0 : system) (ta : nat).
Hypothesis Hfair : fair (length (pool s0)) sched.

Lemma eventually_closer u d k :
  sched (k + d) = Run u → Settled b (exec b sched k s0) → waiting ta (exec b sched k s0) →
  enabled b u (exec b sched k s0) →
  ∃ k', Settled b (exec b sched k' s0) ∧ waiting ta (exec b sched k' s0) ∧
        total_rank (exec b sched k' s0) < total_rank (exec b sched k s0).
Proof.
  revert k. induction d as [| d IH]; intros k Hu HS Hw He.
  - rewrite Nat.add_0_r in Hu. exists (S k). simpl. rewrite Hu.
    pose proof (enabled_step b u _ HS He) as Hlt.
    destruct (Settled_step b (Run u) _ HS) as [Heq | [HS' _]].
    { rewrite Heq in Hlt. lia. }
    destruct Hw as (p & Hp & Hw).
    split; [done | split; [| done]].
    eapply waiter_stays; eauto using settled_inv.
  - destruct (Settled_step b (sched k) _ HS) as [Heq | [HS' Hlt]].
    + assert (exec b sched (S k) s0 = exec b sched k s0) as Hst by (simpl; apply Heq).
      destruct (IH (S k)) as (k' & ? & ? & ?).
      * by replace (S k + d) with (k + S d) by lia.
      * by rewrite Hst.
      * by rewrite Hst.
      * by rewrite Hst.
      * exists k'. by rewrite <- Hst.
    + exists (S k). split; [done | split; [| done]].
      destruct Hw as (p & Hp & Hw).
      eapply waiter_stays; eauto using settled_inv.
Qed.

Lemma settled_returns r :
  ∀ k, Settled b (exec b sched k s0) → waiting ta (exec b sched k s0) → total_rank (exec b sched k s0) ≤ r →
       ∃ m, pool (exec b sched m s0) !! ta = Some Ret.
Proof.
  induction r as [r IH] using lt_wf_ind. intros k HS Hw Hr.
  destruct Hw as (p & Hp & [Hw | ->]); [| eauto].
  destruct (settled_progress b _ ta p HS Hp Hw) as [u He].
  assert (u < length (pool s0)) as Hu.
  { destruct He as (q & _ & _ & _ & Hq & _).
    apply lookup_lt_Some in Hq.
    by rewrite length_exec in Hq. }
  destruct (Hfair u k Hu) as (m & Hkm & Hm).
  destruct (eventually_closer u (m - k) k) as (k' & HS' & Hw' & Hlt);
    [by replace (k + (m - k)) with m by lia | done | by exists p; eauto | done |].
  apply (IH (total_rank (exec b sched k' s0))) with k'; [lia | done | done | lia].
Qed.
End Liveness.

(** Once the event is SET and no reset() is left to execute, every
    wait() call that is under way returns under a fair schedule. *)
Lemma settled_wait_returns (b : backend) (s0 : system) (sched : nat → label)
    (k ta : nat) (p : pc) :
  initial s0 → fair (length (pool s0)) sched →
  pool (exec b sched k s0) !! ta = Some p → wait_active p = true →
  value (ev (exec b sched k s0)) = to_unsigned EV_SET →
  (∀ u q, pool (exec b sched k s0) !! u = Some q → reset_pending q = false) →
  ∃ m, pool (exec b sched m s0) !! ta = Some Ret.
Proof.
  intros H0 Hf Hp Hw Hv Hr.
  apply (settled_returns b sched s0 ta Hf (total_rank (exec b sched k s0)) k).
  - split; [| done | done]. apply Inv_exec. by apply Inv_initial.
  - exists p. auto.
  - done.
Qed.

Lemma round_robin_fair (n : nat) : fair n (round_robin n).
Proof.
  intros t k Ht. exists (t + k * n). split; [nia |].
  unfold round_robin. by rewrite Nat.Div0.mod_add, Nat.mod_small.
Qed.

Lemma reset_race_late (k : nat) : 13 ≤ k → reset_race k = Run (k mod 3).
Proof.
  intros Hk. unfold reset_race. by rewrite lookup_ge_None_2.
Qed.

Lemma reset_race_fair : fair 3 reset_race.
Proof.
  intros t k Ht. exists (t + (k + 5) * 3). split; [lia |].
  rewrite reset_race_late by lia.
  by rewrite Nat.Div0.mod_add, Nat.mod_small.
Qed.

(** After the race the waiter sleeps on a BUSY word, the other two
    threads have returned, and nothing changes any more. *)
Lemma reset_race_stuck (j : nat) :
  exec HAVE_FUTEX reset_race (13 + j) reset_race_start =
  System (Event (to_unsigned EV_BUSY) true (Mutex true None) (Cond true))
         [WaitFutexSleep; Ret; Ret] 1 false.
Proof.
  induction j as [| j IH]; [vm_compute; reflexivity |].
  rewrite Nat.add_succ_r, exec_S, IH, reset_race_late by lia.
  by destruct ((13 + j) mod 3) as [| [| [| t]]].
Qed.

(** C1, the claim as worded fails: in the race above the waiter is
    asleep when the setter's exchange executes, the schedule is fair, and
    the waiter never returns. *)
Lemma no_missed_wakeup_fails : ¬ no_missed_wakeup HAVE_FUTEX.
Proof.
  intros H.
  destruct (H reset_race_start reset_race 6 0 1 WaitFutexSleep) as [m Hm].
  - split; simpl; auto.
    intros [| [| [| t]]] p; simpl; intros [= <-]; auto.
  - apply reset_race_fair.
  - vm_compute; reflexivity.
  - reflexivity.
  - split; [reflexivity | left; vm_compute; reflexivity].
  - destruct (decide (m < 13)) as [Hlt | Hge].
    + do 13 (destruct m as [| m]; [vm_compute in Hm; discriminate Hm |]). lia.
    + replace m with (13 + (m - 13)) in Hm by lia.
      rewrite reset_race_stuck in Hm. discriminate Hm.
Qed.

(** C1 as the code has it: if a wait() call is under way when a set()
    call performs its write, and from that write on no reset() call is
    pending or in progress, then the event is SET and the wait() call
    returns, under every fair schedule, in either build, whatever other
    set() and wait() calls run and whatever spurious wake-ups occur. *)
Theorem wait_returns_without_reset (b : backend) (s0 : system)
    (sched : nat → label) (k ta tb : nat) (p : pc) :
  initial s0 → fair (length (pool s0)) sched →
  pool (exec b sched k s0) !! ta = Some p → wait_active p = true →
  set_executes b sched k s0 tb →
  (∀ u q, pool (exec b sched (S k) s0) !! u = Some q → reset_pending q = false) →
  value (ev (exec b sched (S k) s0)) = to_unsigned EV_SET ∧
  ∃ m, pool (exec b sched m s0) !! ta = Some Ret.
Proof.
  intros H0 Hf Hp Hw [Hk Hset] Hr.
  pose proof (Inv_exec b sched k s0 (Inv_initial b s0 H0)) as HI.
  assert (value (ev (exec b sched (S k) s0)) = to_unsigned EV_SET) as Hv.
  { rewrite exec_S, Hk. destruct Hset as [Hset | Hset];
      erewrite sys_step_run_eq; eauto using inv_alive; reflexivity. }
  split; [done |].
  destruct (waiter_stays b (sched k) _ ta p HI Hp (or_introl Hw))
    as (p2 & Hp2 & [Hw2 | ->]).
  - by apply (settled_wait_returns b s0 sched (S k) ta p2).
  - by exists (S k).
Qed.

Lemma wait_returns_without_reset_witness :
  ∃ m, pool (exec HAVE_FUTEX (round_robin 2) m
               (start (fresh_event false) [WaitAssert; SetAssert])) !! 0 = Some Ret.
Proof.
  apply (wait_returns_without_reset HAVE_FUTEX
           (start (fresh_event false) [WaitAssert; SetAssert])
           (round_robin 2) 5 0 1 WaitFutex).
  - split; simpl; auto.
    intros [| [| t]] p; simpl; intros [= <-]; auto.
  - apply round_robin_fair.
  - vm_compute; reflexivity.
  - reflexivity.
  - split; [reflexivity | left; vm_compute; reflexivity].
  - intros u q Hq. vm_compute in Hq.
    destruct u as [| [| u]]; simplify_eq; reflexivity.
Defined.

(** * Further properties of util/event.c *)

(** With futexes, [qemu_event_wait] (lines 97-136) returns only through
    a load or a compare-and-swap of its own that found the word SET, and
    that action writes nothing: in every interleaving from an initialized
    event, the step on which a waiter returns is a step of that waiter,
    taken while the word is SET, and it leaves the event as it is. *)
Theorem futex_wait_returns_on_set (s0 : system) (tr : list label) (l : label)
    (t : nat) (p : pc) :
  initial s0 →
  pool (run HAVE_FUTEX tr s0) !! t = Some p → wait_active p = true →
  pool (sys_step HAVE_FUTEX l (run HAVE_FUTEX tr s0)) !! t = Some Ret →
  l = Run t ∧
  value (ev (run HAVE_FUTEX tr s0)) = to_unsigned EV_SET ∧
  ev (sys_step HAVE_FUTEX l (run HAVE_FUTEX tr s0)) = ev (run HAVE_FUTEX tr s0).
Proof.
  intros H0 Hp Hw Hret.
  pose proof (Inv_run HAVE_FUTEX tr s0 (Inv_initial _ _ H0)) as HI.
  pose proof (inv_pcs _ _ HI _ _ Hp) as Hok.
  destruct (sys_step_move HAVE_FUTEX l _ HI)
    as [Heq | (tm & q & q' & e' & eff & w & Hq & F & HR & HS & Hl & Heq)].
  { rewrite Heq in Hret. rewrite Hp in Hret. by simplify_eq. }
  rewrite Heq in Hret |- *. simpl in *.
  apply (lookup_step _ _ _ _ _ _ _ Hq) in Hret
    as [[Htm Hret] | [Hne (q0 & Hq0 & Hret)]].
  - subst tm. assert (q = p) as -> by congruence.
    assert (q' = Ret) as -> by (by destruct eff, q').
    destruct l as [u | u]; pose proof (Hl u) as Hu.
    + assert (u = t) as -> by auto. specialize (HR eq_refl).
      split; [done |].
      destruct p; try discriminate Hw; try discriminate Hok;
        simpl in HR; repeat case_match; simplify_eq; words_to_eq; try done.
      match goal with
      | H1 : value ?e = _, H2 : value ?e = _ |- _ => rewrite H1 in H2; discriminate H2
      end.
    + assert (u = t) as -> by auto.
      destruct (HS eq_refl) as (Hs1 & _). by destruct p.
  - assert (q0 = p) as -> by congruence. by destruct eff, p.
Qed.

Lemma futex_wait_returns_on_set_witness :
  value (ev (run HAVE_FUTEX [Run 0] (start (fresh_event true) [WaitAssert])))
    = to_unsigned EV_SET.
Proof.
  apply (futex_wait_returns_on_set (start (fresh_event true) [WaitAssert])
           [Run 0] (Run 0) 0 WaitLoad).
  - split; simpl; auto.
    intros [| t] p; simpl; [intros [= <-]; auto | destruct t; discriminate].
  - reflexivity.
  - reflexivity.
  - reflexivity.
Defined.

(** No sleeper is stranded, resets or not (set 46-74, wait 93-144): in
    every interleaving from an initialized event, while a thread is
    asleep in [qemu_futex_wait] the word is BUSY or a setter stands right
    before [qemu_futex_wake_all]; and while a thread is asleep in
    [pthread_cond_wait] the word is not SET or a setter stands right
    before [pthread_cond_broadcast]. *)
Theorem no_stranded_sleeper (b : backend) (s0 : system) (tr : list label) (t : nat) :
  initial s0 →
  (pool (run b tr s0) !! t = Some WaitFutexSleep →
     value (ev (run b tr s0)) = to_unsigned EV_BUSY ∨
     ∃ u, pool (run b tr s0) !! u = Some SetWake) ∧
  (pool (run b tr s0) !! t = Some WaitCondSleep →
     value (ev (run b tr s0)) ≠ to_unsigned EV_SET ∨
     ∃ u, pool (run b tr s0) !! u = Some SetBroadcast).
Proof.
  intros H0. pose proof (Inv_run b tr s0 (Inv_initial _ _ H0)) as HI.
  split; intros Ht.
  - apply (inv_sleep _ _ HI). eauto.
  - apply (inv_condsleep _ _ HI). eauto.
Qed.

Lemma no_stranded_sleeper_witness :
  value (ev (run HAVE_FUTEX [Run 0; Run 0; Run 0; Run 0]
               (start (fresh_event false) [WaitAssert]))) = to_unsigned EV_BUSY ∨
  ∃ u, pool (run HAVE_FUTEX [Run 0; Run 0; Run 0; Run 0]
               (start (fresh_event false) [WaitAssert])) !! u = Some SetWake.
Proof.
  apply (no_stranded_sleeper HAVE_FUTEX (start (fresh_event false) [WaitAssert])
           [Run 0; Run 0; Run 0; Run 0] 0).
  - split; simpl; auto.
    intros [| t] p; simpl; [intros [= <-]; auto | destruct t; discriminate].
  - reflexivity.
Defined.

(** The mutex of the build without futexes is used with discipline
    (set 69-72, wait 138-142): in every interleaving at most one thread
    is between [pthread_mutex_lock] and the release of the mutex, that
    thread is the owner, and when no thread is there the mutex is free;
    in particular a waiter asleep in [pthread_cond_wait] does not hold
    it and no call returns with the mutex taken. *)
Theorem mutex_discipline (b : backend) (s0 : system) (tr : list label) :
  initial s0 →
  (∀ t u p q, pool (run b tr s0) !! t = Some p → holds_lock p = true →
              pool (run b tr s0) !! u = Some q → holds_lock q = true → t = u) ∧
  (∀ t p, pool (run b tr s0) !! t = Some p → holds_lock p = true →
          mutex_owner (lock (ev (run b tr s0))) = Some t) ∧
  ((∀ t p, pool (run b tr s0) !! t = Some p → holds_lock p = false) →
   mutex_owner (lock (ev (run b tr s0))) = None).
Proof.
  intros H0. pose proof (Inv_run b tr s0 (Inv_initial _ _ H0)) as HI.
  pose proof (inv_owner _ _ HI) as Ho.
  split; [| split].
  - intros t u p q Hp Hhp Hq Hhq.
    assert (mutex_owner (lock (ev (run b tr s0))) = Some t) by (apply Ho; eauto).
    assert (mutex_owner (lock (ev (run b tr s0))) = Some u) by (apply Ho; eauto).
    congruence.
  - intros t p Hp Hh. apply Ho. eauto.
  - intros Hnone. destruct (mutex_owner (lock (ev (run b tr s0)))) as [t |];
      [| done].
    destruct (Ho t) as [Hfw _]. destruct (Hfw eq_refl) as (p & Hp & Hh).
    rewrite (Hnone _ _ Hp) in Hh. discriminate.
Qed.

Lemma mutex_discipline_witness :
  mutex_owner (lock (ev (run NO_FUTEX [Run 0; Run 0; Run 1; Run 0]
                           (start (fresh_event false) [SetAssert; WaitAssert]))))
    = Some 0.
Proof.
  apply (mutex_discipline NO_FUTEX (start (fresh_event false) [SetAssert; WaitAssert])
           [Run 0; Run 0; Run 1; Run 0]) with SetBroadcast.
  - split; simpl; auto.
    intros [| [| t]] p; simpl; intros [= <-]; auto.
  - reflexivity.
  - reflexivity.
Defined.

(** Without futexes no step takes the word out of SET and FREE. *)
Lemma fallback_two_state_step (l : label) (s : system) :
  Inv NO_FUTEX s →
  value (ev s) = to_unsigned EV_SET ∨ value (ev s) = to_unsigned EV_FREE →
  value (ev (sys_step NO_FUTEX l s)) = to_unsigned EV_SET ∨
  value (ev (sys_step NO_FUTEX l s)) = to_unsigned EV_FREE.
Proof.
  intros HI Hv. destruct (sys_step_move NO_FUTEX l s HI)
    as [-> | (t & p & p' & e' & eff & w & Hp & F & HR & HS & Hl & ->)]; [done |].
  simpl. pose proof (inv_pcs _ _ HI _ _ Hp) as Hok.
  destruct l as [u | u].
  - specialize (HR (f_equal Run (Hl u (or_introl eq_refl)))).
    step_cases HR; try discriminate Hok; simpl; auto.
    destruct Hv as [-> | ->]; by right.
  - by destruct (HS (f_equal Spurious (Hl u (or_intror eq_refl)))) as (_ & _ & -> & _).
Qed.

(** Without futexes the word is never BUSY: the only write of
    [EV_BUSY] is the compare-and-swap of line 125, inside
    [#ifdef HAVE_FUTEX].  From an initialized event the word is SET or
    FREE in every interleaving. *)
Theorem fallback_never_busy (s0 : system) (tr : list label) :
  initial s0 →
  value (ev (run NO_FUTEX tr s0)) = to_unsigned EV_SET ∨
  value (ev (run NO_FUTEX tr s0)) = to_unsigned EV_FREE.
Proof.
  intros H0. pose proof (Inv_initial NO_FUTEX s0 H0) as HI.
  pose proof (initial_value _ H0) as Hv. clear H0.
  revert s0 HI Hv. induction tr as [| l tr IH]; intros s0 HI Hv; [done |].
  rewrite run_cons. apply IH; [by apply Inv_step | by apply fallback_two_state_step].
Qed.

Lemma fallback_never_busy_witness :
  value (ev (run NO_FUTEX [Run 0; Run 0; Run 0; Run 0]
               (start (fresh_event false) [WaitAssert]))) = to_unsigned EV_SET ∨
  value (ev (run NO_FUTEX [Run 0; Run 0; Run 0; Run 0]
               (start (fresh_event false) [WaitAssert]))) = to_unsigned EV_FREE.
Proof.
  apply (fallback_never_busy (start (fresh_event false) [WaitAssert])
           [Run 0; Run 0; Run 0; Run 0]).
  split; simpl; auto.
  intros [| t] p; simpl; [intros [= <-]; auto | destruct t; discriminate].
Defined.

(** ** Wake traffic *)

Lemma budget_step (b : backend) (t : nat) (p p' : pc) (e e' : QemuEvent)
    (eff : effect) :
  pc_ok b p = true → thread_step b t p e = Step p' e' eff →
  count_effect eff + wake_budget p' ≤ wake_budget p.
Proof.
  intros Hok Hs. step_cases Hs; try discriminate Hok; simpl; lia.
Qed.

Lemma budget_effect (eff : effect) (q : pc) :
  wake_budget (apply_effect eff q) = wake_budget q.
Proof. by destruct eff, q. Qed.

Lemma budget_spurious (p : pc) : wake_budget (wake_spurious p) = wake_budget p.
Proof. by destruct p. Qed.

Lemma set_calls_effect (eff : effect) (ps : list pc) :
  set_calls (apply_effect eff <$> ps) = set_calls ps.
Proof.
  unfold set_calls. induction ps as [| q ps IH]; csimpl; [done |].
  by rewrite budget_effect, IH.
Qed.

Lemma set_calls_insert (ps : list pc) (t : nat) (p p' : pc) :
  ps !! t = Some p →
  set_calls (<[t := p']> ps) + wake_budget p = set_calls ps + wake_budget p'.
Proof.
  unfold set_calls. revert t.
  induction ps as [| q ps IH]; intros [| t] Ht; csimpl in *; try done.
  - simplify_eq. lia.
  - specialize (IH t Ht). lia.
Qed.

Lemma budget_sys_step (b : backend) (l : label) (s : system) :
  Inv b s →
  wakes (sys_step b l s) + set_calls (pool (sys_step b l s))
  ≤ wakes s + set_calls (pool s).
Proof.
  intros HI. destruct (sys_step_kind b l s)
    as [l | t p Hp Hs | t p p' e' eff Hp Hs | t p Hp Hw]; simpl; [lia | lia | |].
  - rewrite set_calls_effect.
    pose proof (set_calls_insert _ _ _ p' Hp).
    pose proof (budget_step b t p p' _ _ eff (inv_pcs _ _ HI _ _ Hp) Hs). lia.
  - pose proof (set_calls_insert _ _ _ (wake_spurious p) Hp).
    rewrite budget_spurious in *. lia.
Qed.

(** Wake operations are never amplified (set 46-74): in every
    interleaving from an initialized event, the number of wake
    operations issued so far plus the number of set() calls that may
    still issue one never grows; so at most one [qemu_futex_wake_all] or
    [pthread_cond_broadcast] is issued per set() call, and none by
    reset(), by wait() or by a spurious wake-up. *)
Theorem wake_ops_bounded (b : backend) (s0 : system) (tr : list label) :
  initial s0 →
  wakes (run b tr s0) + set_calls (pool (run b tr s0))
  ≤ wakes s0 + set_calls (pool s0).
Proof.
  intros H0. pose proof (Inv_initial b s0 H0) as HI. clear H0.
  revert s0 HI. induction tr as [| l tr IH]; intros s0 HI; [done |].
  rewrite run_cons. etransitivity; [apply IH; by apply Inv_step |].
  by apply budget_sys_step.
Qed.

Lemma wake_ops_bounded_witness :
  wakes (run HAVE_FUTEX [Run 0; Run 0; Run 1; Run 1]
           (start (fresh_event true) [SetAssert; SetAssert]))
  + set_calls (pool (run HAVE_FUTEX [Run 0; Run 0; Run 1; Run 1]
                       (start (fresh_event true) [SetAssert; SetAssert])))
  ≤ 0 + 2.
Proof.
  apply (wake_ops_bounded HAVE_FUTEX (start (fresh_event true) [SetAssert; SetAssert])
           [Run 0; Run 0; Run 1; Run 1]).
  split; simpl; auto.
  intros [| [| t]] p; simpl; intros [= <-]; auto.
Defined.

(** ** Fan-out *)

Lemma ret_stays (b : backend) (l : label) (s : system) (t : nat) :
  pool s !! t = Some Ret → pool (sys_step b l s) !! t = Some Ret.
Proof.
  intros Ht. destruct (sys_step_kind b l s)
    as [l | u p Hp Hs | u p p' e' eff Hp Hs | u p Hp Hw]; simpl; try done.
  - apply (lookup_step _ _ _ _ _ _ _ Hp). destruct (decide (t = u)) as [-> | Hne].
    + assert (p = Ret) as -> by congruence. discriminate Hs.
    + right. split; [done |]. exists Ret. split; [done | by destruct eff].
  - apply (lookup_spurious _ _ _ _ _ Hp). destruct (decide (t = u)) as [-> | Hne].
    + assert (p = Ret) as -> by congruence. by destruct Hw.
    + by right.
Qed.

Lemma ret_stays_exec (b : backend) (sched : nat → label) (s0 : system)
    (t k m : nat) :
  k ≤ m → pool (exec b sched k s0) !! t = Some Ret →
  pool (exec b sched m s0) !! t = Some Ret.
Proof.
  intros Hkm Hk. induction Hkm as [| m Hkm IH]; [done |].
  rewrite exec_S. by apply ret_stays.
Qed.

Lemma Settled_exec (b : backend) (sched : nat → label) (s0 : system) (k m : nat) :
  k ≤ m → Settled b (exec b sched k s0) → Settled b (exec b sched m s0).
Proof.
  intros Hkm Hk. induction Hkm as [| m Hkm IH]; [done |].
  rewrite exec_S. destruct (Settled_step b (sched m) _ IH) as [-> | [? _]]; done.
Qed.

Lemma waiting_exec (b : backend) (sched : nat → label) (s0 : system)
    (ta k m : nat) :
  k ≤ m → Inv b (exec b sched k s0) → waiting ta (exec b sched k s0) →
  waiting ta (exec b sched m s0).
Proof.
  intros Hkm HI Hk. induction Hkm as [| m Hkm IH]; [done |].
  rewrite exec_S. destruct IH as (p & Hp & Hw).
  eapply waiter_stays; [| done | done].
  clear Hp Hw. induction Hkm; [done | rewrite exec_S; by apply Inv_step].
Qed.

(** Every waiter among the first [n] threads has returned at some
    common later time. *)
Lemma waiters_return_upto (b : backend) (sched : nat → label) (s0 : system)
    (k n : nat) :
  fair (length (pool s0)) sched → Settled b (exec b sched k s0) →
  ∃ m, k ≤ m ∧
       ∀ t p, t < n → pool (exec b sched k s0) !! t = Some p →
              wait_active p = true → pool (exec b sched m s0) !! t = Some Ret.
Proof.
  intros Hf HS. induction n as [| n (m & Hkm & IH)].
  - exists k. split; [done | intros; lia].
  - destruct (pool (exec b sched k s0) !! n) as [p |] eqn:Hp.
    2: { exists m. split; [done |]. intros t q Ht Hq Hw.
         destruct (decide (t = n)) as [-> | Hne]; [congruence |].
         apply (IH t q); [lia | done | done]. }
    destruct (wait_active p) eqn:Hw.
    2: { exists m. split; [done |]. intros t q Ht Hq Hwq.
         destruct (decide (t = n)) as [-> | Hne]; [congruence |].
         apply (IH t q); [lia | done | done]. }
    assert (waiting n (exec b sched m s0)) as Hwm.
    { eapply waiting_exec; [done | by apply settled_inv |]. exists p. auto. }
    destruct (settled_returns b sched s0 n Hf _ m
                (Settled_exec _ _ _ _ _ Hkm HS) Hwm (le_n _)) as [m' Hm'].
    exists (m `max` m'). split; [lia |]. intros t q Ht Hq Hwq.
    destruct (decide (t = n)) as [-> | Hne].
    + apply (ret_stays_exec b sched s0 n m'); [lia | done].
    + apply (ret_stays_exec b sched s0 t m); [lia |].
      apply (IH t q); [lia | done | done].
Qed.

(** Wake-all, not wake-one (set 46-74, wait 93-144): once the word is
    SET and no reset() is pending or in progress, there is a time by
    which every wait() call that was under way, however many there are,
    has returned, under every fair schedule, in either build. *)
Theorem all_waiters_return (b : backend) (s0 : system) (sched : nat → label)
    (k : nat) :
  initial s0 → fair (length (pool s0)) sched →
  value (ev (exec b sched k s0)) = to_unsigned EV_SET →
  (∀ u q, pool (exec b sched k s0) !! u = Some q → reset_pending q = false) →
  ∃ m, k ≤ m ∧
       ∀ t p, pool (exec b sched k s0) !! t = Some p → wait_active p = true →
              pool (exec b sched m s0) !! t = Some Ret.
Proof.
  intros H0 Hf Hv Hr.
  destruct (waiters_return_upto b sched s0 k (length (pool s0)) Hf)
    as (m & Hkm & Hm).
  { split; [| done | done]. apply Inv_exec. by apply Inv_initial. }
  exists m. split; [done |]. intros t p Hp Hw. apply (Hm t p); [| done | done].
  apply lookup_lt_Some in Hp. by rewrite length_exec in Hp.
Qed.

Lemma all_waiters_return_witness :
  ∃ m, 8 ≤ m ∧
       ∀ t p, pool (exec NO_FUTEX (round_robin 3) 8
                      (start (fresh_event true) [WaitAssert; WaitAssert; SetAssert]))
                !! t = Some p →
              wait_active p = true →
              pool (exec NO_FUTEX (round_robin 3) m
                      (start (fresh_event true) [WaitAssert; WaitAssert; SetAssert]))
                !! t = Some Ret.
Proof.
  apply (all_waiters_return NO_FUTEX
           (start (fresh_event true) [WaitAssert; WaitAssert; SetAssert])
           (round_robin 3) 8).
  - split; simpl; auto.
    intros [| [| [| t]]] p; simpl; intros [= <-]; auto.
  - apply round_robin_fair.
  - vm_compute. reflexivity.
  - intros u q Hq. vm_compute in Hq.
    destruct u as [| [| [| u]]]; simplify_eq; reflexivity.
Defined.

(** ** Lifecycle *)

(** Use after destroy is fatal, re-initialization revives (destroy
    36-44 with the asserts of lines 38, 48, 78, 95): on an initialized
    event whose mutex nobody owns, [qemu_event_destroy] returns having
    cleared the flag, kept the word and, without futexes, destroyed the
    mutex and the condition variable; on the event it leaves behind,
    destroy(), set(), reset() and wait() all abort, while
    [qemu_event_init] brings it back. *)
Theorem destroy_then_use (b : backend) (e : QemuEvent) :
  initialized e = true → mutex_owner (lock e) = None →
  ∃ e', call b OpDestroy e = Returned e' 0 ∧
        initialized e' = false ∧ value e' = value e ∧
        match b with
        | NO_FUTEX => mutex_constructed (lock e') = false ∧ cond e' = Cond false
        | HAVE_FUTEX => lock e' = lock e ∧ cond e' = cond e
        end ∧
        call b OpDestroy e' = Aborted ∧ call b OpSet e' = Aborted ∧
        call b OpReset e' = Aborted ∧ call b OpWait e' = Aborted ∧
        ∀ init, ∃ e'', call b (OpInit init) e' = Returned e'' 0 ∧
                       initialized e'' = true ∧
                       value e'' = to_unsigned (if init then EV_SET else EV_FREE).
Proof.
  intros Hi Hm. destruct e as [v i [mc o] c]. simpl in Hi, Hm. subst i o.
  destruct b; eexists; (split; [reflexivity |]); simpl;
    repeat split; intros init; eexists; repeat split.
Qed.

Lemma destroy_then_use_witness :
  ∃ e', call NO_FUTEX OpDestroy (fresh_event true) = Returned e' 0 ∧
        initialized e' = false ∧ value e' = value (fresh_event true) ∧
        (mutex_constructed (lock e') = false ∧ cond e' = Cond false) ∧
        call NO_FUTEX OpDestroy e' = Aborted ∧ call NO_FUTEX OpSet e' = Aborted ∧
        call NO_FUTEX OpReset e' = Aborted ∧ call NO_FUTEX OpWait e' = Aborted ∧
        ∀ init, ∃ e'', call NO_FUTEX (OpInit init) e' = Returned e'' 0 ∧
                       initialized e'' = true ∧
                       value e'' = to_unsigned (if init then EV_SET else EV_FREE).
Proof. apply (destroy_then_use NO_FUTEX (fresh_event true)); reflexivity. Defined.

(** ** Blocking *)

(** reset() never blocks and the futex set() never blocks (reset 76-91,
    set 50-67): on an initialized event, whatever the word and whoever
    owns the mutex, a reset() running alone returns with the word OR-ed
    with FREE, and a set() with futexes returns with the word SET after
    at most one wake operation.  Without futexes set() takes the mutex
    (line 69): while another thread owns it, set() stands at
    [pthread_mutex_lock] with the event untouched. *)
Theorem set_reset_blocking (e : QemuEvent) :
  initialized e = true →
  (∀ b, call b OpReset e = Returned (with_value (reset_or (value e)) e) 0) ∧
  (∃ n, call HAVE_FUTEX OpSet e = Returned (with_value (to_unsigned EV_SET) e) n
        ∧ n ≤ 1) ∧
  (∀ u, mutex_owner (lock e) = Some u →
        call NO_FUTEX OpSet e = NotReturned SetLock e).
Proof.
  intros Hi. destruct e as [v i [mc o] c]. simpl in *. subst i.
  split; [| split].
  - by intros [].
  - destruct (v =? to_unsigned EV_SET)%Z eqn:Hset;
      destruct (to_int v =? EV_BUSY)%Z eqn:Hbusy;
      eexists; (split; [eval_call; words_to_eq; subst; reflexivity | lia]).
  - intros u ->. reflexivity.
Qed.

Lemma set_reset_blocking_witness :
  call NO_FUTEX OpSet (Event 1 true (Mutex true (Some 7)) (Cond true)) =
    NotReturned SetLock (Event 1 true (Mutex true (Some 7)) (Cond true)).
Proof.
  apply (set_reset_blocking (Event 1 true (Mutex true (Some 7)) (Cond true)))
    with 7; reflexivity.
Defined.

Lemma run_replicate_fixed (b : backend) (l : label) (s : system) (n : nat) :
  sys_step b l s = s → run b (replicate n l) s = s.
Proof.
  intros Hs. induction n as [| n IH]; [done |].
  simpl replicate. by rewrite run_cons, Hs.
Qed.

Lemma alone_add (b : backend) (n m : nat) (o : op) (e : QemuEvent) :
  alone b (n + m) o e = run b (replicate m (Run 0)) (alone b n o e).
Proof. unfold alone. by rewrite replicate_add, run_app. Qed.

(** A wait() on an event that is not SET sleeps until somebody else
    acts (wait 93-144): running alone on an initialized FREE event with a
    free mutex, the waiter is asleep after four actions, in
    [qemu_futex_wait] with the word turned BUSY (futexes), or in
    [pthread_cond_wait] with the word still FREE and the mutex released
    (no futexes), and as long as it is the only one to act it never
    returns. *)
Theorem wait_alone_sleeps (b : backend) (e : QemuEvent) (n : nat) :
  initialized e = true → value e = to_unsigned EV_FREE →
  mutex_owner (lock e) = None →
  pool (alone b n OpWait e) ≠ [Ret] ∧
  alone b (4 + n) OpWait e =
    match b with
    | HAVE_FUTEX => System (with_value (to_unsigned EV_BUSY) e) [WaitFutexSleep] 0 false
    | NO_FUTEX => System e [WaitCondSleep] 0 false
    end.
Proof.
  intros Hi Hv Hm. destruct e as [v i [mc o] c]. simpl in *. subst.
  assert (alone b (4 + n) OpWait
            (Event (to_unsigned EV_FREE) true (Mutex mc None) c) =
          match b with
          | HAVE_FUTEX =>
              System (with_value (to_unsigned EV_BUSY)
                        (Event (to_unsigned EV_FREE) true (Mutex mc None) c))
                     [WaitFutexSleep] 0 false
          | NO_FUTEX =>
              System (Event (to_unsigned EV_FREE) true (Mutex mc None) c)
                     [WaitCondSleep] 0 false
          end) as Hsleep.
  { rewrite alone_add. destruct b; by apply run_replicate_fixed. }
  split; [| done].
  destruct (decide (n < 4)) as [Hlt | Hge].
  - destruct b; do 4 (destruct n as [| n]; [discriminate |]); lia.
  - replace n with (4 + (n - 4)) by lia. rewrite alone_add.
    destruct b; by rewrite run_replicate_fixed.
Qed.

Lemma wait_alone_sleeps_witness :
  pool (alone HAVE_FUTEX 100 OpWait (fresh_event false)) ≠ [Ret].
Proof.
  apply (wait_alone_sleeps HAVE_FUTEX (fresh_event false) 100); reflexivity.
Defined.

(** With futexes a spurious wake-up is absorbed (wait 98-136): a waiter
    asleep on a BUSY word that is woken for no reason reloads the word
    (neither SET nor FREE), calls [qemu_futex_wait] again and is asleep
    again, and the whole system is exactly as before. *)
Theorem futex_spurious_absorbed (s : system) (t : nat) :
  aborted s = false → pool s !! t = Some WaitFutexSleep →
  value (ev s) = to_unsigned EV_BUSY →
  pool (sys_step HAVE_FUTEX (Spurious t) s) !! t = Some WaitLoad ∧
  run HAVE_FUTEX [Spurious t; Run t; Run t] s = s.
Proof.
  intros Ha Hp Hv. apply lookup_lt_Some in Hp as Hlt.
  destruct s as [e ps w a]. simpl in Ha, Hp, Hv, Hlt. subst a.
  assert (sys_step HAVE_FUTEX (Spurious t) (System e ps w false) =
          System e (<[t := WaitLoad]> ps) w false) as H1.
  { unfold sys_step. simpl. by rewrite Hp. }
  split.
  { rewrite H1. simpl. by apply list_lookup_insert_eq. }
  rewrite !run_cons, run_nil, H1.
  rewrite (sys_step_run_eq HAVE_FUTEX (System e (<[t := WaitLoad]> ps) w false)
             t WaitLoad WaitFutex e Silent);
    [| done | by apply list_lookup_insert_eq | simpl; by rewrite Hv].
  simpl. rewrite fmap_silent, list_insert_insert_eq.
  rewrite (sys_step_run_eq HAVE_FUTEX (System e (<[t := WaitFutex]> ps) (w + 0) false)
             t WaitFutex WaitFutexSleep e Silent);
    [| done | by apply list_lookup_insert_eq | simpl; by rewrite Hv].
  simpl. rewrite fmap_silent, list_insert_insert_eq, list_insert_id by done.
  f_equal. lia.
Qed.

Lemma futex_spurious_absorbed_witness :
  run HAVE_FUTEX [Spurious 0; Run 0; Run 0]
      (System (Event (to_unsigned EV_BUSY) true (Mutex true None) (Cond true))
              [WaitFutexSleep; Ret] 1 false)
  = System (Event (to_unsigned EV_BUSY) true (Mutex true None) (Cond true))
           [WaitFutexSleep; Ret] 1 false.
Proof.
  apply (futex_spurious_absorbed
           (System (Event (to_unsigned EV_BUSY) true (Mutex true None) (Cond true))
                   [WaitFutexSleep; Ret] 1 false) 0); reflexivity.
Defined.

(** ** The OR of reset() on every word *)

Lemma lor_one (v : Z) : (0 ≤ v)%Z → Z.lor v 1 = if Z.odd v then v else (v + 1)%Z.
Proof.
  intros Hv. destruct v as [| q | q]; [done | | lia].
  by destruct q.
Qed.

(** Line 84 on any 32-bit word, not only on the three encodings: the OR
    with [EV_FREE] sets bit 0 and nothing else, so it leaves the word or
    adds one to it, stays within 32 bits, is idempotent, never yields SET,
    and yields FREE only from SET or FREE. *)
Theorem reset_or_word (v : Z) :
  (0 ≤ v < 2 ^ 32)%Z →
  reset_or v = (if Z.odd v then v else v + 1)%Z ∧
  (0 ≤ reset_or v < 2 ^ 32)%Z ∧
  reset_or (reset_or v) = reset_or v ∧
  reset_or v ≠ to_unsigned EV_SET ∧
  (reset_or v = to_unsigned EV_FREE ↔
   v = to_unsigned EV_SET ∨ v = to_unsigned EV_FREE).
Proof.
  intros Hv.
  assert (reset_or v = if Z.odd v then v else (v + 1)%Z) as Hr.
  { unfold reset_or. rewrite free_word, lor_one by lia. unfold to_unsigned.
    destruct (Z.odd v) eqn:Ho; [apply Z.mod_small; lia |].
    apply Z.mod_small. split; [lia |].
    assert (v ≠ 2 ^ 32 - 1)%Z; [| lia].
    intros ->. discriminate Ho. }
  assert (Z.odd (reset_or v) = true) as Hodd.
  { rewrite Hr. destruct (Z.odd v) eqn:Ho; [done |].
    rewrite Z.add_1_r, Z.odd_succ. by rewrite <- Z.negb_odd, Ho. }
  assert (0 ≤ reset_or v < 2 ^ 32)%Z as Hrange.
  { unfold reset_or, to_unsigned. apply Z.mod_pos_bound. lia. }
  split; [done |]. split; [done |]. split; [| split].
  - unfold reset_or at 1. rewrite free_word, lor_one, Hodd by lia.
    unfold to_unsigned. apply Z.mod_small. lia.
  - intros Heq. rewrite Heq in Hodd. discriminate Hodd.
  - rewrite Hr, set_word, free_word. destruct (Z.odd v) eqn:Ho.
    + split; [auto | intros [-> | ->]; [discriminate Ho | done]].
    + split; [intros ?; left; lia | intros [-> | ->]; [done | discriminate Ho]].
Qed.

Lemma reset_or_word_witness : reset_or 6 = 7%Z.
Proof. apply (reset_or_word 6). lia. Defined.

(** ** Who performs which transition *)

(** The comment of lines 6-19, checked against the code: an action of
    set(), reset() or wait() that changes a word among SET, FREE, BUSY is
    either an action of set() (the exchange of line 59 or the store of
    line 70) taking FREE or BUSY to SET, or the OR of reset() (line 84)
    taking SET to FREE, or the compare-and-swap of wait() (line 125)
    taking FREE to BUSY; destroy() changes nothing. *)
Theorem transition_owner (b : backend) (t : nat) (p p' : pc) (e e' : QemuEvent)
    (eff : effect) :
  tri (value e) → func_of p ≠ Some FInit →
  thread_step b t p e = Step p' e' eff → value e' ≠ value e →
  (p = SetXchg ∨ p = SetStore) ∧ value e' = to_unsigned EV_SET ∧
    (value e = to_unsigned EV_FREE ∨ value e = to_unsigned EV_BUSY)
  ∨ p = ResetOr ∧ value e = to_unsigned EV_SET ∧ value e' = to_unsigned EV_FREE
  ∨ p = WaitCas ∧ value e = to_unsigned EV_FREE ∧ value e' = to_unsigned EV_BUSY.
Proof.
  intros Hv Hp Hs Hne.
  step_cases Hs; simpl in *; try done.
  all: try (right; right; by repeat split).
  all: try (left; split; [auto |]; split; [done |];
            destruct Hv as [? | [? | ?]]; auto; congruence).
  right. left. apply tri_cases in Hv as [Hv | [Hv | Hv]];
    rewrite Hv in *; vm_compute in Hne; done.
Qed.

Lemma transition_owner_witness :
  (ResetOr = SetXchg ∨ ResetOr = SetStore) ∧
    value (with_value (reset_or 0) (fresh_event true)) = to_unsigned EV_SET ∧
    (value (fresh_event true) = to_unsigned EV_FREE ∨
     value (fresh_event true) = to_unsigned EV_BUSY)
  ∨ ResetOr = ResetOr ∧ value (fresh_event true) = to_unsigned EV_SET ∧
    value (with_value (reset_or 0) (fresh_event true)) = to_unsigned EV_FREE
  ∨ ResetOr = WaitCas ∧ value (fresh_event true) = to_unsigned EV_FREE ∧
    value (with_value (reset_or 0) (fresh_event true)) = to_unsigned EV_BUSY.
Proof.
  apply (transition_owner HAVE_FUTEX 0 ResetOr Ret (fresh_event true)
           (with_value (reset_or 0) (fresh_event true)) Silent).
  - left. reflexivity.
  - discriminate.
  - reflexivity.
  - discriminate.
Defined.

(** ** Going to sleep *)

(** Nobody goes to sleep on a SET event (wait 135 and 139-140): in every
    interleaving from an initialized event, a step that puts a thread to
    sleep, in [qemu_futex_wait] or in [pthread_cond_wait], is taken
    while the word is not SET; with futexes the word is BUSY. *)
Theorem never_sleeps_on_set (b : backend) (s0 : system) (tr : list label)
    (l : label) (t : nat) (p : pc) :
  initial s0 →
  pool (run b tr s0) !! t = Some p →
  p ≠ WaitFutexSleep → p ≠ WaitCondSleep →
  pool (sys_step b l (run b tr s0)) !! t = Some WaitFutexSleep ∨
  pool (sys_step b l (run b tr s0)) !! t = Some WaitCondSleep →
  l = Run t ∧
  value (ev (run b tr s0)) ≠ to_unsigned EV_SET ∧
  value (ev (sys_step b l (run b tr s0))) = value (ev (run b tr s0)) ∧
  (pool (sys_step b l (run b tr s0)) !! t = Some WaitFutexSleep →
   value (ev (run b tr s0)) = to_unsigned EV_BUSY).
Proof.
  intros H0 Hp Hn1 Hn2 Hsl.
  pose proof (Inv_run b tr s0 (Inv_initial _ _ H0)) as HI.
  destruct (sys_step_move b l _ HI)
    as [Heq | (tm & q & q' & e' & eff & w & Hq & F & HR & HS & Hl & Heq)].
  { rewrite Heq in Hsl. destruct Hsl; congruence. }
  rewrite Heq in Hsl |- *. simpl in *.
  assert (∃ z, (z = WaitFutexSleep ∨ z = WaitCondSleep) ∧
               (apply_effect eff <$> <[tm := q']> (pool (run b tr s0))) !! t = Some z)
    as (z & Hz & Hlook) by (destruct Hsl; eauto).
  apply (lookup_step _ _ _ _ _ _ _ Hq) in Hlook
    as [[Htm Hzq] | [Hne (q0 & Hq0 & Hzq)]].
  2: { assert (q0 = p) as -> by congruence.
       destruct Hz as [-> | ->]; destruct eff, p; simplify_eq; done. }
  subst tm. assert (q = p) as -> by congruence.
  destruct l as [u | u]; pose proof (Hl u) as Hu.
  2: { assert (u = t) as -> by auto. destruct (HS eq_refl) as (-> & _ & _ & ->).
       destruct Hz as [-> | ->]; by destruct p. }
  assert (u = t) as -> by auto. specialize (HR eq_refl).
  split; [done |].
  assert (q' = z) as -> by (destruct Hz as [-> | ->]; by destruct eff, q').
  destruct Hz as [-> | ->].
  - step_cases HR; simpl.
    match goal with H : value _ = _ |- _ => rewrite H end.
    split; [discriminate | done].
  - step_cases HR; simpl.
    split; [apply (inv_condwait _ _ HI); eauto |]. split; [done |].
    intros Hx. apply (lookup_step _ _ _ _ _ _ _ Hp) in Hx
      as [[_ Hx] | [Hx _]]; done.
Qed.

Lemma never_sleeps_on_set_witness :
  value (ev (run NO_FUTEX [Run 0; Run 0; Run 0]
               (start (fresh_event false) [WaitAssert]))) ≠ to_unsigned EV_SET.
Proof.
  apply (never_sleeps_on_set NO_FUTEX (start (fresh_event false) [WaitAssert])
           [Run 0; Run 0; Run 0] (Run 0) 0 WaitCondWait).
  - split; simpl; auto.
    intros [| t] p; simpl; [intros [= <-]; auto | destruct t; discriminate].
  - reflexivity.
  - discriminate.
  - discriminate.
  - right. reflexivity.
Defined.

(** ** set() and reset() always return *)

Section FairProgress.
Context (b : backend) (sched : nat → label) (s0 : system).
Context (G target : system → Prop) (mu : system → nat).
Hypothesis Hfair : fair (length (pool s0)) sched.
Hypothesis G_step :
  ∀ l s, G s → G (sys_step b l s) ∧ mu (sys_step b l s) ≤ mu s.
Hypothesis G_progress :
  ∀ s, G s → target s ∨ ∃ u, u < length (pool s) ∧ helps b mu u s.
Hypothesis G_keep :
  ∀ l u s, G s → helps b mu u s →
           mu (sys_step b l s) < mu s ∨ helps b mu u (sys_step b l s).

Lemma fair_closer (u d k : nat) :
  sched (k + d) = Run u → G (exec b sched k s0) →
  helps b mu u (exec b sched k s0) →
  ∃ k', G (exec b sched k' s0) ∧ mu (exec b sched k' s0) < mu (exec b sched k s0).
Proof.
  revert k. induction d as [| d IH]; intros k Hu HG Hh.
  - rewrite Nat.add_0_r in Hu. exists (S k). rewrite exec_S, Hu.
    split; [by apply G_step | by destruct Hh].
  - destruct (G_keep (sched k) u _ HG Hh) as [Hlt | Hh'].
    + exists (S k). rewrite exec_S. split; [by apply G_step | done].
    + destruct (IH (S k)) as (k' & HG' & Hlt).
      * by replace (S k + d) with (k + S d) by lia.
      * rewrite exec_S. by apply G_step.
      * by rewrite exec_S.
      * exists k'. split; [done |].
        pose proof (proj2 (G_step (sched k) _ HG)) as Hle.
        rewrite <- exec_S in Hle. lia.
Qed.

Lemma fair_progress (r k : nat) :
  G (exec b sched k s0) → mu (exec b sched k s0) ≤ r →
  ∃ m, target (exec b sched m s0).
Proof.
  revert k. induction r as [r IH] using lt_wf_ind. intros k HG Hr.
  destruct (G_progress _ HG) as [Ht | (u & Hu & Hh)]; [eauto |].
  rewrite length_exec in Hu.
  destruct (Hfair u k Hu) as (m & Hkm & Hm).
  destruct (fair_closer u (m - k) k) as (k' & HG' & Hlt);
    [by replace (k + (m - k)) with m by lia | done | done |].
  apply (IH (mu (exec b sched k' s0))) with k'; [lia | done | lia].
Qed.
End FairProgress.

Lemma caller_stays (b : backend) (l : label) (s : system) (t : nat) :
  Inv b s → calling t s → calling t (sys_step b l s).
Proof.
  intros HI (p & Hp & Hc). destruct (sys_step_move b l s HI)
    as [-> | (tm & q & q' & e' & eff & w & Hq & F & _ & _ & _ & ->)];
    [by exists p |].
  simpl. destruct (decide (t = tm)) as [-> | Hne].
  - exists (apply_effect eff q'). split; [by eapply lookup_mover |].
    assert (q = p) as -> by congruence. rewrite func_of_effect.
    destruct (sf_func _ _ _ _ _ _ _ F) as [Hf | ->].
    + rewrite Hf. destruct Hc as [? | [? | ->]]; auto.
      apply func_of_ret in Hf as ->. right. right. by destruct eff.
    + right. right. by destruct eff.
  - exists (apply_effect eff p). split.
    + apply (lookup_step _ _ _ _ _ _ _ Hq). right. eauto.
    + rewrite func_of_effect. destruct Hc as [? | [? | ->]]; auto.
      right. right. by destruct eff.
Qed.

(** Without futexes no action loops: every action brings its thread
    closer to the return, whatever the word. *)
Lemma step_rank_fallback (t : nat) (p p' : pc) (e e' : QemuEvent) (eff : effect) :
  pc_ok NO_FUTEX p = true → thread_step NO_FUTEX t p e = Step p' e' eff →
  rank p' < rank p.
Proof. intros Hok Hs. step_cases Hs; try discriminate Hok; simpl; lia. Qed.

Lemma fallback_step_rank (l : label) (s : system) :
  Inv NO_FUTEX s →
  sys_step NO_FUTEX l s = s ∨ total_rank (sys_step NO_FUTEX l s) < total_rank s.
Proof.
  intros HI. destruct (sys_step_move NO_FUTEX l s HI)
    as [-> | (t & p & p' & e' & eff & w & Hp & F & HR & HS & Hl & Heq)];
    [by left | right].
  rewrite Heq. unfold total_rank. simpl. eapply rank_move; [done |].
  destruct l as [u | u].
  - pose proof (Hl u (or_introl eq_refl)) as ->.
    eapply step_rank_fallback; [by eapply inv_pcs | by apply HR].
  - pose proof (Hl u (or_intror eq_refl)) as ->.
    destruct (HS eq_refl) as (-> & Hne & _). by apply spurious_settled.
Qed.

Lemma fallback_enabled_rank (u : nat) (s : system) :
  Inv NO_FUTEX s → enabled NO_FUTEX u s →
  total_rank (sys_step NO_FUTEX (Run u) s) < total_rank s.
Proof.
  intros HI (p & p' & e' & eff & Hp & Hs).
  rewrite (sys_step_run_eq _ _ _ _ _ _ _ (inv_alive _ _ HI) Hp Hs).
  unfold total_rank. simpl. eapply rank_move; [done |].
  eapply step_rank_fallback; [by eapply inv_pcs | done].
Qed.

Lemma fallback_call_returns (sched : nat → label) (s0 : system) (t k : nat) :
  fair (length (pool s0)) sched →
  Inv NO_FUTEX (exec NO_FUTEX sched k s0) → calling t (exec NO_FUTEX sched k s0) →
  ∃ m, pool (exec NO_FUTEX sched m s0) !! t = Some Ret.
Proof.
  intros Hf HI Hc.
  apply (fair_progress NO_FUTEX sched s0
           (λ s, Inv NO_FUTEX s ∧ calling t s)
           (λ s, pool s !! t = Some Ret) total_rank Hf)
    with (total_rank (exec NO_FUTEX sched k s0)) k; [| | | done | done].
  - intros l s [HIs Hcs]. split; [split; [by apply Inv_step | by apply caller_stays] |].
    destruct (fallback_step_rank l s HIs) as [-> | ?]; lia.
  - intros s [HIs (p & Hp & Hcp)].
    destruct (decide (p = Ret)) as [-> | Hnr]; [by left | right].
    pose proof (inv_pcs _ _ HIs _ _ Hp) as Hok.
    pose proof (inv_flag _ _ HIs) as Hflag.
    assert (∃ u, enabled NO_FUTEX u s) as [u He].
    { unfold enabled.
      destruct p; try discriminate Hok; try (by destruct Hnr);
        try (by destruct Hcp as [? | [? | ?]]).
      - exists t, SetAssert. simpl. rewrite Hflag. eauto.
      - destruct (mutex_owner (lock (ev s))) as [u |] eqn:Ho.
        + apply (inv_owner _ _ HIs) in Ho as (q & Hq & Hh).
          exists u, q. destruct q; try discriminate Hh; simpl; eauto.
        + exists t, SetLock. simpl. unfold mutex_lock. rewrite Ho. eauto.
      - exists t, SetStore. simpl. eauto.
      - exists t, SetBroadcast. simpl. eauto.
      - exists t, SetUnlock. simpl. eauto.
      - exists t, ResetAssert. simpl. rewrite Hflag. eauto.
      - exists t, ResetOr. simpl. eauto. }
    exists u. split.
    + destruct He as (q & _ & _ & _ & Hq & _). by apply lookup_lt_Some in Hq.
    + split; [done | by apply fallback_enabled_rank].
  - intros l u s [HIs Hcs] [He Hlt].
    destruct (fallback_step_rank l s HIs) as [-> | ?]; [right | by left].
    by split.
Qed.

(** With futexes the actions of set() and reset() are always possible
    and none of them loops. *)
Lemma futex_call_step (t : nat) (p : pc) (e : QemuEvent) :
  pc_ok HAVE_FUTEX p = true → initialized e = true →
  func_of p = Some FSet ∨ func_of p = Some FReset →
  ∃ p' e' eff, thread_step HAVE_FUTEX t p e = Step p' e' eff ∧ rank p' < rank p.
Proof.
  intros Hok Hf Hc.
  destruct p; try discriminate Hok; try (by destruct Hc); simpl; rewrite ?Hf;
    repeat case_match; eexists _, _, _; (split; [reflexivity | simpl; lia]).
Qed.

Lemma futex_call_untouched (eff : effect) (p : pc) :
  func_of p = Some FSet ∨ func_of p = Some FReset ∨ p = Ret →
  apply_effect eff p = p ∧ wake_spurious p = p.
Proof. intros Hc. destruct eff, p; by destruct Hc as [? | [? | ?]]. Qed.

Lemma futex_thread_rank_step (l : label) (s : system) (t : nat) :
  Inv HAVE_FUTEX s → calling t s →
  thread_rank t (sys_step HAVE_FUTEX l s) ≤ thread_rank t s ∧
  (l ≠ Run t → pool (sys_step HAVE_FUTEX l s) !! t = pool s !! t).
Proof.
  intros HI (p & Hp & Hc).
  destruct (sys_step_kind HAVE_FUTEX l s)
    as [l | u q Hq Hs | u q q' e' eff Hq Hs | u q Hq Hw]; try done.
  - unfold thread_rank. simpl. destruct (decide (t = u)) as [-> | Hne].
    + assert (q = p) as Hqp by congruence; subst q.
      rewrite (lookup_mover _ _ _ _ _ Hq), Hp. simpl. split; [| done].
      pose proof (apply_effect_rank eff q').
      destruct Hc as [Hc | [Hc | ->]]; [| | discriminate Hs];
        destruct (futex_call_step u p (ev s)) as (? & ? & ? & Hs' & Hlt);
        eauto using inv_pcs, inv_flag; rewrite Hs in Hs'; simplify_eq; lia.
    + assert ((apply_effect eff <$> <[u := q']> (pool s)) !! t = Some p) as Hp'.
      { apply (lookup_step _ _ _ _ _ _ _ Hq). right. split; [done |].
        exists p. split; [done |]. symmetry. by apply futex_call_untouched. }
      rewrite Hp', Hp. done.
  - unfold thread_rank. simpl. destruct (decide (t = u)) as [-> | Hne].
    + assert (q = p) as Hqp by congruence; subst q. destruct Hw.
      by apply (futex_call_untouched Silent).
    + rewrite list_lookup_insert_ne by done. done.
Qed.

Lemma futex_call_returns (sched : nat → label) (s0 : system) (t k : nat) :
  fair (length (pool s0)) sched →
  Inv HAVE_FUTEX (exec HAVE_FUTEX sched k s0) →
  calling t (exec HAVE_FUTEX sched k s0) →
  ∃ m, pool (exec HAVE_FUTEX sched m s0) !! t = Some Ret.
Proof.
  intros Hf HI Hc.
  assert (∀ s, Inv HAVE_FUTEX s → calling t s → pool s !! t ≠ Some Ret →
               helps HAVE_FUTEX (thread_rank t) t s) as Hhelp.
  { intros s HIs (p & Hp & Hcp) Hnr.
    assert (func_of p = Some FSet ∨ func_of p = Some FReset) as Hcp'.
    { destruct Hcp as [? | [? | ->]]; auto. done. }
    destruct (futex_call_step t p (ev s)) as (p' & e' & eff & Hs & Hlt);
      eauto using inv_pcs, inv_flag.
    split; [by exists p, p', e', eff |].
    rewrite (sys_step_run_eq _ _ _ _ _ _ _ (inv_alive _ _ HIs) Hp Hs).
    unfold thread_rank. simpl. rewrite (lookup_mover _ _ _ _ _ Hp), Hp. simpl.
    pose proof (apply_effect_rank eff p'). lia. }
  apply (fair_progress HAVE_FUTEX sched s0
           (λ s, Inv HAVE_FUTEX s ∧ calling t s)
           (λ s, pool s !! t = Some Ret) (thread_rank t) Hf)
    with (thread_rank t (exec HAVE_FUTEX sched k s0)) k; [| | | done | done].
  - intros l s [HIs Hcs]. split; [split; [by apply Inv_step | by apply caller_stays] |].
    by apply futex_thread_rank_step.
  - intros s [HIs Hcs].
    destruct (decide (pool s !! t = Some Ret)) as [? | Hnr]; [by left | right].
    exists t. split; [| by apply Hhelp].
    destruct Hcs as (p & Hp & _). by apply lookup_lt_Some in Hp.
  - intros l u s [HIs Hcs] [He Hlt].
    destruct (decide (u = t)) as [-> | Hut].
    2: { destruct (futex_thread_rank_step (Run u) s t HIs Hcs) as [_ Hsame].
         unfold thread_rank in Hlt. rewrite Hsame in Hlt by congruence. lia. }
    assert (l = Run t ∨ l ≠ Run t) as [-> | Hl].
    { destruct l as [v | v]; [| by right].
      destruct (decide (v = t)) as [-> | ?]; [by left | right; congruence]. }
    + by left.
    + right. destruct (futex_thread_rank_step l s t HIs Hcs) as [_ Hsame].
      apply Hhelp; [by apply Inv_step | by apply caller_stays |].
      rewrite (Hsame Hl). destruct He as (p & p' & e' & eff & Hp & Hs).
      rewrite Hp. intros [= ->]. discriminate Hs.
Qed.

(** set() and reset() always return (set 46-74, reset 76-91): in every
    interleaving from an initialized event, resets, waits and spurious
    wake-ups included, a call of set() or reset() that is under way
    returns under every fair schedule.  With futexes its actions are
    always possible; without futexes set() may have to wait for the
    mutex, which every owner gives back. *)
Theorem set_reset_return (b : backend) (s0 : system) (sched : nat → label)
    (k t : nat) (p : pc) :
  initial s0 → fair (length (pool s0)) sched →
  pool (exec b sched k s0) !! t = Some p →
  func_of p = Some FSet ∨ func_of p = Some FReset →
  ∃ m, pool (exec b sched m s0) !! t = Some Ret.
Proof.
  intros H0 Hf Hp Hc.
  pose proof (Inv_exec b sched k s0 (Inv_initial _ _ H0)) as HI.
  assert (calling t (exec b sched k s0)) as Hcall.
  { exists p. split; [done |]. destruct Hc; auto. }
  destruct b; [by eapply futex_call_returns | by eapply fallback_call_returns].
Qed.

Lemma set_reset_return_witness :
  ∃ m, pool (exec NO_FUTEX (round_robin 3) m
               (start (fresh_event false) [WaitAssert; SetAssert; ResetAssert]))
         !! 1 = Some Ret.
Proof.
  apply (set_reset_return NO_FUTEX
           (start (fresh_event false) [WaitAssert; SetAssert; ResetAssert])
           (round_robin 3) 0 1 SetAssert).
  - split; simpl; auto.
    intros [| [| [| t]]] p; simpl; intros [= <-]; auto.
  - apply round_robin_fair.
  - reflexivity.
  - left. reflexivity.
Defined.
